(** * Verification of the permutation generators of [gmn-coding-assignment]

    A shallow embedding of [src/util.ts] and [src/index.ts].

    Modelling conventions.
    - A JavaScript number that holds an integer is a [Z].  Sums pass through
      [JS.round53], the rounding of an IEEE-754 double to 53 significant
      bits, so the growth of a counter beyond [2^53] is visible.
    - A PRNG output is a rational ([Q]): every double in [[0,1)] is one.
      A product of doubles is the exact product rounded to the nearest
      double, ties to even ([JS.round_double]).
    - A [Uint32Array] is a [list Z] whose stores are reduced modulo [2^32];
      an ordinary array is a [list value].
    - A closure that owns mutable state (the seed of [mulberry32], the
      engine's [Math.random]) is a function from the state to the result and
      the next state.  Where several closures live side by side, each owns
      a cell of a store ([Closures]).
    - Memory exhaustion of the host is not modelled: an allocation succeeds
      whenever the language permits the requested length. *)

From Stdlib Require Import ZArith QArith Qround Qabs Qpower Lia Lqa Ascii String.
From stdpp Require Import base numbers list list_numbers strings pretty sorting
  gmap.

Local Open Scope Z_scope.

(** ** Integer-valued JavaScript numbers and the 32-bit operators *)

Module JS.

(** [ToUint32]: the value modulo [2^32]. *)
Definition ToUint32 (x : Z) : Z := x mod 2 ^ 32.

(** [ToInt32]: the same residue, read as a two's complement word. *)
Definition ToInt32 (x : Z) : Z :=
  let m := x mod 2 ^ 32 in
  if 2 ^ 31 <=? m then m - 2 ^ 32 else m.

(** [a ^ b] *)
Definition bxor (a b : Z) : Z := Z.lxor (ToInt32 a) (ToInt32 b).

(** [a | b] *)
Definition bor (a b : Z) : Z := Z.lor (ToInt32 a) (ToInt32 b).

(** [a >>> k] *)
Definition ushr (a k : Z) : Z := Z.shiftr (ToUint32 a) (ToUint32 k mod 32).

(** [Math.imul (a, b)] *)
Definition imul (a b : Z) : Z := ToInt32 (ToUint32 a * ToUint32 b).

(** Round an integer to the nearest double (53 significant bits, ties to
    even).  Integers of magnitude below [2^53] are exact; the overflow to
    [Infinity], beyond [2^1024], is not modelled. *)
Definition round53 (z : Z) : Z :=
  let a := Z.abs z in
  if a <? 2 ^ 53 then z
  else
    let e := Z.log2 a - 52 in
    let q := a / 2 ^ e in
    let r := a mod 2 ^ e in
    let half := 2 ^ (e - 1) in
    let q' :=
      if r <? half then q
      else if half <? r then q + 1
      else if Z.even q then q else q + 1 in
    Z.sgn z * (q' * 2 ^ e).

(** [a + b] on integer-valued doubles. *)
Definition add (a b : Z) : Z := round53 (a + b).

(** [a - b] on integer-valued doubles. *)
Definition sub (a b : Z) : Z := round53 (a - b).

(** The binary exponent of a positive rational: the [e] with
    [2^e <= x < 2^(e+1)]. *)
Definition ilog2 (x : Q) : Z :=
  let d := Z.log2 (Qnum x) - Z.log2 (Z.pos (Qden x)) in
  if Qle_bool (2 ^ d) x then d else d - 1.

(** The nearest integer, a tie going to the even one. *)
Definition round_half_even (y : Q) : Z :=
  let f := Qfloor y in
  match (y - inject_Z f ?= 1 # 2)%Q with
  | Lt => f
  | Gt => f + 1
  | Eq => if Z.even f then f else f + 1
  end.

(** The double nearest to a real number, ties to even: 53 significant bits
    at the exponent of the number, and multiples of [2^-1074] below the
    normal range.  The overflow to [Infinity], beyond [2^1024], is not
    modelled. *)
Definition round_double (x : Q) : Q :=
  let a := Qabs x in
  let e := Z.max (ilog2 a - 52) (-1074) in
  let m := round_half_even (a / 2 ^ e) in
  (if Qle_bool 0 x then inject_Z m * 2 ^ e else - (inject_Z m * 2 ^ e))%Q.

(** The rationals that are doubles. *)
Definition is_double (x : Q) : Prop := (round_double x == x)%Q.

(** [a * b] on doubles. *)
Definition mul (a b : Q) : Q := round_double (a * b).

(** [a - b] on doubles. *)
Definition diff (a b : Q) : Q := round_double (a - b).

End JS.

(** ** The mulberry32 generator (util.ts, [mulberry32]) *)

(** One call of the closure returned by [mulberry32 (seed)].  The argument
    is the current value of the captured variable [seed], an integer (the
    program seeds it with [Date.now ()]); the result is the returned number
    and the new value of [seed]. *)
Definition mulberry32 (seed : Z) : Q * Z :=
  let seed := JS.add seed 0x6D2B79F5 in
  let t := seed in
  let t := JS.imul (JS.bxor t (JS.ushr t 15)) (JS.bor t 1) in
  let t := JS.bxor t (JS.add t (JS.imul (JS.bxor t (JS.ushr t 7)) (JS.bor t 61))) in
  (JS.ushr (JS.bxor t (JS.ushr t 14)) 0 # 4294967296, seed).

(** The outputs of [k] successive calls, and the state left behind. *)
Fixpoint mulberry32_draws (k : nat) (seed : Z) : list Q * Z :=
  match k with
  | O => ([], seed)
  | S k' =>
      let '(r, seed) := mulberry32 seed in
      let '(rs, seed) := mulberry32_draws k' seed in
      (r :: rs, seed)
  end.

(** ** Generator instances

    [mulberry32 (seed)] returns a closure that owns the variable [seed].  A
    program may hold several such closures (util.ts holds one at module
    level, [mulberry32_rand]); the store, a finite map, gives for each
    closure the current value of its variable. *)
Module Closures.






End Closures.

(** The generator as the specification words it: one unsigned 32-bit word
    of state, every intermediate reduced modulo [2^32]. *)
Module U32.

Definition wrap (x : Z) : Z := x mod 2 ^ 32.

Definition mulberry32_spec (state : Z) : Q * Z :=
  let state := wrap (state + 0x6D2B79F5) in
  let t := state in
  let t := wrap (Z.lxor t (Z.shiftr t 15) * Z.lor t 1) in
  let t := Z.lxor t (wrap (t + wrap (Z.lxor t (Z.shiftr t 7) * Z.lor t 61))) in
  (Z.lxor t (Z.shiftr t 14) # 4294967296, state).

(** [k] successive outputs of the 32-bit generator. *)
Fixpoint mulberry32_spec_draws (k : nat) (state : Z) : list Q * Z :=
  match k with
  | O => ([], state)
  | S k' =>
      let '(r, state) := mulberry32_spec state in
      let '(rs, state) := mulberry32_spec_draws k' state in
      (r :: rs, state)
  end.

End U32.

(** ** JavaScript values, arrays and typed arrays *)

(** The values that occur in the arrays of util.ts: [undefined], a number,
    or an array of numbers (a bucket of [BucketRadixShuffle]). *)
Inductive value :=
| VUndef
| VNum (z : Z)
| VArr (l : list Z).

(** Truthiness, as tested by [if (v)], [!v] and [v || d]. *)
Definition truthy (v : value) : bool :=
  match v with
  | VUndef => false
  | VNum z => negb (z =? 0)
  | VArr _ => true
  end.

(** [Array.isArray (v)], [v instanceof Array] *)
Definition isArray (v : value) : bool :=
  match v with
  | VArr _ => true
  | _ => false
  end.

(** The outcome of a call that allocates: a value, or a thrown
    [RangeError]. *)
Inductive result (A : Type) :=
| Ok (a : A)
| RangeError.
Arguments Ok {A} a.
Arguments RangeError {A}.

(** [Array.from ({ length: n })]: [n] holes; a negative length is clamped to
    zero, a length above [2^32 - 1] is refused. *)
Definition Array_from_length (n : Z) : result (list value) :=
  if 2 ^ 32 - 1 <? n then RangeError
  else Ok (replicate (Z.to_nat n) VUndef).

(** [Array.from ({ length: n }, mapfn)]: element [k] is [mapfn (undefined, k)]. *)
Definition Array_from_length_map (n : Z) (mapfn : value → Z → value) :
  result (list value) :=
  if 2 ^ 32 - 1 <? n then RangeError
  else Ok (mapfn VUndef <$> seqZ 0 n).

(** [a[i]] on an ordinary array. *)
Definition arr_get (a : list value) (i : Z) : value :=
  if i <? 0 then VUndef else default VUndef (a !! Z.to_nat i).

(** [a[i] = v] on an ordinary array: a store past the end extends the
    array, the skipped positions read as [undefined].  A negative index
    names a property that is not an element; the model drops that store. *)
Definition arr_set (a : list value) (i : Z) (v : value) : list value :=
  if i <? 0 then a
  else if i <? Z.of_nat (length a) then <[Z.to_nat i := v]> a
  else a ++ replicate (Z.to_nat i - length a) VUndef ++ [v].

(** [new Uint32Array (n)]: [n] zeroes. *)
Definition new_Uint32Array (n : Z) : result (list Z) :=
  if (n <? 0) || (2 ^ 53 - 1 <? n) then RangeError
  else Ok (replicate (Z.to_nat n) 0).

(** The values a [Uint32Array] can hold. *)
Definition is_u32 (v : Z) : Prop := 0 <= v < 2 ^ 32.

(** [a[i]] on a typed array: [None] is [undefined]. *)
Definition u32_get (a : list Z) (i : Z) : option Z :=
  if i <? 0 then None else a !! Z.to_nat i.

(** [a[i] = v] on a typed array: the value is converted with [ToUint32]
    ([undefined] becomes 0); a store outside the array is dropped. *)
Definition u32_set (a : list Z) (i : Z) (v : option Z) : list Z :=
  if i <? 0 then a
  else <[Z.to_nat i := from_option JS.ToUint32 0 v]> a.

(** [v || d] for a typed-array read [v] and a number [d]. *)
Definition or_else (v : option Z) (d : Z) : Z :=
  match v with
  | Some z => if z =? 0 then d else z
  | None => d
  end.

(** [Math.floor (r * k)]: the floor of the double product. *)
Definition floor_mul (r : Q) (k : Z) : Z := Qfloor (JS.mul r (inject_Z k)).

(** The indices visited by [for (let i = 0; i < n; ++i)]. *)
Definition upto (n : Z) : list Z := seqZ 0 n.

(** The indices visited by [for (let i = n - 1; i > 0; --i)]. *)
Definition downfrom (n : Z) : list Z := reverse (seqZ 1 (n - 1)).

(** ** Sequence builders (util.ts) *)

Definition arrayFillA (n : Z) : result (list value) :=
  Array_from_length_map n (λ _ i, VNum i).

Definition arrayFillB (n : Z) : result (list value) :=
  match Array_from_length n with
  | RangeError => RangeError
  | Ok a => Ok (foldl (λ a i, arr_set a i (VNum (i + 1))) a (upto n))
  end.

Definition arrayFillZero (n : Z) : result (list value) :=
  match Array_from_length n with
  | RangeError => RangeError
  | Ok a => Ok (foldl (λ a i, arr_set a i (VNum 0)) a (upto n))
  end.

(** ** Permutation strategies (util.ts) *)

Section Strategies.

(** The random sources are parameters: [Math_random] is the engine's
    [Math.random], [mulberry32_rand] the process-wide generator.  Each is a
    transition on its own state; the program instantiates the second with
    [mulberry32], the state being the captured seed. *)
Context {R : Type} (Math_random : R → Q * R).
Context {G : Type} (mulberry32_rand : G → Q * G).

(** Body of the shuffle loop of [AFB_x_AS]. *)
Definition AFB_x_AS_swap (st : list value * R) (i : Z) : list value * R :=
  let '(a, s) := st in
  let '(r, s) := Math_random s in
  let j := floor_mul r (i + 1) in
  let t := arr_get a i in
  let a := arr_set a i (arr_get a j) in
  let a := arr_set a j t in
  (a, s).

Definition AFB_x_AS (n : Z) (s : R) : result (list value) * R :=
  match Array_from_length n with
  | RangeError => (RangeError, s)
  | Ok a =>
      let a := foldl (λ a i, arr_set a i (VNum (i + 1))) a (upto n) in
      let '(a, s) := foldl AFB_x_AS_swap (a, s) (downfrom n) in
      (Ok a, s)
  end.

(** Body of the shuffle loop of [AFB_x_AS_x_OPT]. *)
Definition AFB_x_AS_x_OPT_swap (st : list Z * G) (i : Z) : list Z * G :=
  let '(a, s) := st in
  let '(r, s) := mulberry32_rand s in
  let j := floor_mul r (i + 1) in
  let t := u32_get a i in
  let a := u32_set a i (u32_get a j) in
  let a := u32_set a j t in
  (a, s).

Definition AFB_x_AS_x_OPT (n : Z) (s : G) : result (list Z) * G :=
  match new_Uint32Array n with
  | RangeError => (RangeError, s)
  | Ok a =>
      let a := foldl (λ a i, u32_set a i (Some (i + 1))) a (upto n) in
      let '(a, s) := foldl AFB_x_AS_x_OPT_swap (a, s) (downfrom n) in
      (Ok a, s)
  end.

(** Body of the loop of [AFB_x_AS_x_OPT_x_NO_INIT]. *)
Definition AFB_x_AS_x_OPT_x_NO_INIT_swap (st : list Z * G) (i : Z) :
  list Z * G :=
  let '(a, s) := st in
  let '(r, s) := mulberry32_rand s in
  let j := floor_mul r (i + 1) in
  let t := or_else (u32_get a i) (i + 1) in
  let a := u32_set a i (Some (or_else (u32_get a j) (j + 1))) in
  let a := u32_set a j (Some t) in
  (a, s).

Definition AFB_x_AS_x_OPT_x_NO_INIT (n : Z) (s : G) : result (list Z) * G :=
  match new_Uint32Array n with
  | RangeError => (RangeError, s)
  | Ok a =>
      let '(a, s) := foldl AFB_x_AS_x_OPT_x_NO_INIT_swap (a, s) (downfrom n) in
      (Ok a, s)
  end.

(** First loop of [BucketRadixShuffle]: value [i + 1] goes to a random slot
    of the memory [m].  A falsy slot ([undefined] or 0) receives the number;
    a slot that holds a number becomes the array of that number and the new
    one; a slot that holds an array has the number pushed onto it. *)
Definition BucketRadixShuffle_put (st : list value * R) (i : Z) :
  list value * R :=
  let '(m, s) := st in
  let '(x, s) := Math_random s in
  let r := floor_mul x (Z.of_nat (length m)) in
  let m :=
    match arr_get m r with
    | VArr l => arr_set m r (VArr (l ++ [i + 1]))
    | VNum z => if z =? 0 then arr_set m r (VNum (i + 1))
                else arr_set m r (VArr [z; i + 1])
    | VUndef => arr_set m r (VNum (i + 1))
    end in
  (m, s).

(** [v.length]: only an array has one. *)
Definition value_length (v : value) : option Z :=
  match v with
  | VArr l => Some (Z.of_nat (length l))
  | _ => None
  end.

(** [v[j]] for a slot [v]. *)
Definition value_index (v : value) (j : Z) : value :=
  match v with
  | VArr l => if j <? 0 then VUndef else from_option VNum VUndef (l !! Z.to_nat j)
  | _ => VUndef
  end.

(** Second loop of [BucketRadixShuffle]: slot [i] of [m] is appended to the
    output [a].  The test that selects the branch reads [m[1]]. *)
Definition BucketRadixShuffle_emit (m : list value) (a : list value) (i : Z) :
  list value :=
  if truthy (arr_get m i) then
    if negb (isArray (arr_get m 1)) then a ++ [arr_get m i]
    else
      foldl (λ a j, a ++ [value_index (arr_get m i) j]) a
            (upto (default 0 (value_length (arr_get m i))))
  else a.

(** [BucketRadixShuffle (m, n) ()]: the returned array, the memory as the
    call leaves it, and the state of the random source. *)
Definition BucketRadixShuffle (m : list value) (n : Z) (s : R) :
  list value * list value * R :=
  let '(m, s) := foldl BucketRadixShuffle_put (m, s) (upto n) in
  let a := foldl (BucketRadixShuffle_emit m) [] (upto (Z.of_nat (length m))) in
  (a, m, s).

End Strategies.

(** The array that a lazily initialised buffer stands for: a zero at index
    [k] reads as [k + 1], as in the expression [a[k] || (k + 1)]. *)
Definition materialize (a : list Z) : list Z :=
  imap (λ k v, or_else (Some v) (Z.of_nat k + 1)) a.

(** The values held by one slot of the bucket memory. *)
Definition slot_contents (v : value) : list Z :=
  match v with
  | VUndef => []
  | VNum z => if z =? 0 then [] else [z]
  | VArr l => l
  end.

(** The values held by the memory, slot after slot. *)
Definition memory_contents (m : list value) : list Z := m ≫= slot_contents.

(** A list in which an earlier element is always the smaller one. *)
Definition ascending (l : list Z) : Prop :=
  ∀ (p q : nat) (x y : Z), (p < q)%nat → l !! p = Some x → l !! q = Some y → x < y.

(** The state of the bucket memory after the values [1 .. k] have been
    placed in the memory [m0]: every slot is in ascending order and holds
    values up to [k] only, and together the slots hold what [m0] held and
    [1 .. k]. *)
Definition distributed (m0 : list value) (k : Z) (m : list value) : Prop :=
  length m = length m0
  ∧ memory_contents m ≡ₚ memory_contents m0 ++ seqZ 1 k
  ∧ Forall (λ v, ascending (slot_contents v)
                 ∧ Forall (λ y, y <= k) (slot_contents v)) m.

(** A number in [[0,1)]: a double that is at least 0 and below 1. *)
Definition unit_interval (r : Q) : Prop :=
  JS.is_double r ∧ (0 <= r)%Q ∧ (r < 1)%Q.

(** A random source whose outputs lie in [[0,1)] from every state that
    satisfies [good], a property that its transitions keep. *)
Definition outputs_in_unit_interval {G : Type}
  (rand : G → Q * G) (good : G → Prop) : Prop :=
  ∀ s, good s → unit_interval (rand s).1 ∧ good (rand s).2.

(** A scripted random source: it replays a list of outputs, then zeroes. *)
Definition replay (l : list Q) : Q * list Q :=
  match l with
  | [] => (0%Q, [])
  | r :: l => (r, l)
  end.

(** ** Numbers that need not be integers *)

(** A JavaScript number as [Number (argv2)] or a quotient may produce it;
    finite values are rationals. *)
Inductive number :=
| NaN
| Infinity (negative : bool)
| Finite (q : Q).

(** [Number.isInteger (n)] *)
Definition Number_isInteger (n : number) : bool :=
  match n with
  | Finite q => Qnum q mod Z.pos (Qden q) =? 0
  | _ => false
  end.

(** [n < k] for a finite [k]; a comparison with [NaN] is false. *)
Definition number_lt (n : number) (k : Q) : bool :=
  match n with
  | NaN => false
  | Infinity negative => negative
  | Finite q => negb (Qle_bool k q)
  end.

(** [a / b] for finite [a] and [b]. *)
Definition number_div (a b : Q) : number :=
  if Qeq_bool b 0 then
    if Qeq_bool a 0 then NaN else Infinity (negb (Qle_bool 0 a))
  else Finite (a / b).

(** [a * k] for a finite positive [k]. *)
Definition number_mul_pos (a : number) (k : Q) : number :=
  match a with
  | Finite q => Finite (q * k)
  | _ => a
  end.

(** The sizes the program accepts: the positive integers. *)
Definition is_positive_integer (n : number) : Prop :=
  match n with
  | Finite q => ∃ k : Z, 1 <= k ∧ (q == inject_Z k)%Q
  | _ => False
  end.

(** ** The command-line program (index.ts) *)

(** What [main] does to the outside world.  [call_AFB_x_AS_x_OPT n] marks
    the call [AFB_x_AS_x_OPT (n) ()], where the buffer is allocated. *)
Inductive event :=
| console_error (msg : string)
| process_exit (code : Z)
| call_AFB_x_AS_x_OPT (n : Z)
| stdout_write (s : string)
| uncaught_RangeError.

(** The string of one line feed, ['\n']. *)
Definition newline : string := String "010"%char EmptyString.

Section Main.

(** The conversion [Number (argv2)] of the language is a parameter. *)
Context (Number : string → number).

(** The writes of the output loop, from index [i] on. *)
Fixpoint write_from (i : nat) (a : list Z) : list event :=
  match a with
  | [] => []
  | x :: a =>
      (if (0 <? i)%nat then [stdout_write ","] else [])
        ++ stdout_write (pretty x) :: write_from (S i) a
  end.

(** [main ()], given [process.argv[2]] ([None] when absent) and the state
    of the process-wide generator. *)
Definition main (argv2 : option string) (seed : Z) : list event :=
  match argv2 with
  | None | Some "" =>
      [console_error "Enter a number n as a command line argument.";
       process_exit 1]
  | Some arg =>
      let n := Number arg in
      if negb (Number_isInteger n) || number_lt n 1 then
        [console_error "n must be a positive integer (> 0).";
         process_exit 1]
      else
        match n with
        | Finite q =>
            let n := Qfloor q in
            call_AFB_x_AS_x_OPT n ::
            match fst (AFB_x_AS_x_OPT mulberry32 n seed) with
            | Ok a => write_from 0 a ++ [stdout_write newline]
            | RangeError => [uncaught_RangeError]
            end
        | _ => []
        end
  end.

End Main.

(** ** The benchmark harness (util.ts, [measure]) *)

(** How a call ends. *)
Inductive completion :=
| Returned
| Threw.

Section Harness.

(** The state of the program that a benchmarked thunk works on. *)
Context {T : Type}.

(** The world of the harness: the program state, the readings that
    [performance.now ()] will return, and the lines written by
    [console.warn]. *)
Record World := {
  heap : T;
  timeline : nat → Q;
  console : list (list string);
}.

Record MeasureArgs := {
  f : World → completion * World;
  n : Q;
  name : string;
}.

(** Locale formatting of a number with a minimum and a maximum number of
    fraction digits; it belongs to the engine and is a parameter. *)
Context (toLocaleString : number → option nat → option nat → string).

(** [performance.now ()]: the next reading of the clock. *)
Definition performance_now (w : World) : Q * World :=
  (timeline w 0%nat,
   {| heap := heap w; timeline := λ k, timeline w (S k); console := console w |}).

(** [console.warn (...cols)] *)
Definition console_warn (cols : list string) (w : World) : World :=
  {| heap := heap w; timeline := timeline w; console := console w ++ [cols] |}.

(** [k] spaces. *)
Fixpoint spaces (k : nat) : string :=
  match k with
  | O => ""
  | S k => String " "%char (spaces k)
  end.

(** [s.padStart (k, ' ')] *)
Definition padStart (k : nat) (s : string) : string :=
  spaces (k - String.length s) +:+ s.

(** The rate reported by [measure]: [n / ms * 1000]. *)
Definition ops_per_second (n ms : Q) : number :=
  number_mul_pos (number_div n ms) 1000.

Definition measure (args : MeasureArgs) (w : World) : completion * World :=
  let '(now, w) := performance_now w in
  match f args w with
  | (Threw, w) => (Threw, w)
  | (Returned, w) =>
      let '(t, w) := performance_now w in
      let ms := (t - now)%Q in
      (Returned,
       console_warn
         [padStart 32 (name args);
          padStart 24 (toLocaleString (Finite ms) (Some 2%nat) (Some 2%nat) +:+ " ms");
          padStart 24 (toLocaleString (ops_per_second (n args) ms) None (Some 0%nat)
                       +:+ " ops/s")]
         w)
  end.

End Harness.
Arguments World T : clear implicits.
Arguments MeasureArgs T : clear implicits.


(** ** The other functions of util.ts *)

(** [a << k] *)
Definition JS_shl (a k : Z) : Z :=
  JS.ToInt32 (Z.shiftl (JS.ToInt32 a) (JS.ToUint32 k mod 32)).

(** The module-level variables of the xorshift128 generator. *)
Record xorshift128_state := {
  _w : Z;
  _x : Z;
  _y : Z;
  _z : Z;
}.

(** Their initial values. *)
Definition xorshift128_init : xorshift128_state :=
  {| _w := 88675123; _x := 123456789; _y := 362436069; _z := 521288629 |}.

(** [xorshift128_rand ()]: the returned number and the new variables. *)
Definition xorshift128_rand (st : xorshift128_state) : Z * xorshift128_state :=
  let t := JS.bxor (_x st) (JS_shl (_x st) 11) in
  let x := _y st in
  let y := _z st in
  let z := _w st in
  let w :=
    JS.ushr
      (JS.bxor (JS.bxor (JS.bxor (_w st) (JS.ushr t 8)) (JS.ushr (_w st) 19))
               (JS_shl t 13))
      0 in
  (w, {| _w := w; _x := x; _y := y; _z := z |}).

(** The new [_w] written with unsigned 32-bit operations only, from the
    residues of [_x] and [_w]. *)
Definition xorshift128_word (x w : Z) : Z :=
  let x := U32.wrap x in
  let w := U32.wrap w in
  let t := Z.lxor x (U32.wrap (Z.shiftl x 11)) in
  Z.lxor (Z.lxor (Z.lxor w (Z.shiftr t 8)) (Z.shiftr w 19))
         (U32.wrap (Z.shiftl t 13)).

(** Arrays of other element types: [hole] is what an unset position reads
    as.  These are [Array_from_length], [arr_get] and [arr_set] again. *)
Definition Array_of_length {A : Type} (hole : A) (n : Z) : result (list A) :=
  if 2 ^ 32 - 1 <? n then RangeError
  else Ok (replicate (Z.to_nat n) hole).

Definition array_set {A : Type} (hole : A) (a : list A) (i : Z) (v : A) :
  list A :=
  if i <? 0 then a
  else if i <? Z.of_nat (length a) then <[Z.to_nat i := v]> a
  else a ++ replicate (Z.to_nat i - length a) hole ++ [v].

(** [a.sort (cmp)] on defined elements.  For a consistent comparator the
    language fixes the result: the stable sorted arrangement.  [cmp x y] is
    the number returned by the comparator; [x] stays before [y] unless it
    is positive. *)
Fixpoint sort_insert {A : Type} (cmp : A → A → Q) (x : A) (l : list A) :
  list A :=
  match l with
  | [] => [x]
  | y :: l' => if Qle_bool (cmp x y) 0 then x :: l else y :: sort_insert cmp x l'
  end.

Definition Array_sort {A : Type} (cmp : A → A → Q) (a : list A) : list A :=
  foldr (sort_insert cmp) [] a.

(** The comparator [(_a, _b) => _a - _b], on integers. *)
Definition numeric (a b : Z) : Q := inject_Z (JS.sub a b).

(** [arraySort (a) ()], for an array of numbers as its type requires. *)
Definition arraySort (a : list Z) : list Z := Array_sort numeric a.

Section MoreStrategies.

Context {R : Type} (Math_random : R → Q * R).
Context {G : Type} (mulberry32_rand : G → Q * G).

(** [arrayFillIndexRandom (n) ()]: element [i] is the pair of [i + 1] and a
    draw; [None] is a position not yet set. *)
Definition arrayFillIndexRandom (n : Z) (s : R) :
  result (list (option (Z * Q))) * R :=
  match Array_of_length None n with
  | RangeError => (RangeError, s)
  | Ok a =>
      let '(a, s) :=
        foldl (λ '(a, s) i,
                 let '(r, s) := Math_random s in
                 (array_set None a i (Some (i + 1, r)), s))
              (a, s) (upto n) in
      (Ok a, s)
  end.

(** [arrayFillRandom (n) ()] *)
Definition arrayFillRandom (n : Z) (s : R) : result (list (option Q)) * R :=
  match Array_of_length None n with
  | RangeError => (RangeError, s)
  | Ok a =>
      let '(a, s) :=
        foldl (λ '(a, s) i,
                 let '(r, s) := Math_random s in
                 (array_set None a i (Some r), s))
              (a, s) (upto n) in
      (Ok a, s)
  end.

(** Body of the loop of [arrayShuffle]. *)
Definition arrayShuffle_swap (st : list value * R) (i : Z) : list value * R :=
  let '(a, s) := st in
  let '(r, s) := Math_random s in
  let j := floor_mul r (i + 1) in
  let t := arr_get a i in
  let a := arr_set a i (arr_get a j) in
  let a := arr_set a j t in
  (a, s).

(** [arrayShuffle (a) ()]: the array as the call leaves it, which is also
    the returned array. *)
Definition arrayShuffle (a : list value) (s : R) : list value * R :=
  foldl arrayShuffle_swap (a, s) (downfrom (Z.of_nat (length a))).

(** [randomMath (n) ()]: [n] draws, discarded. *)
Definition randomMath (n : Z) (s : R) : R :=
  foldl (λ s _, (Math_random s).2) s (upto n).

(** [randomMulberry32 (n) ()] *)
Definition randomMulberry32 (n : Z) (s : G) : G :=
  foldl (λ s _, (mulberry32_rand s).2) s (upto n).

(** [AFIR_x_SORT (n) ()]: the pairs of a draw and [i + 1], sorted by the
    draw.  After the fill loop every position is set, so the sort sees
    defined elements only; a position still unset is left out of the
    comparison and kept at the end. *)
Definition AFIR_x_SORT (n : Z) (s : R) : result (list (option (Q * Z))) * R :=
  match Array_of_length None n with
  | RangeError => (RangeError, s)
  | Ok a =>
      let '(a, s) :=
        foldl (λ '(a, s) i,
                 let '(r, s) := Math_random s in
                 (array_set None a i (Some (r, i + 1)), s))
              (a, s) (upto n) in
      let sorted :=
        Array_sort (λ _a _b, JS.diff _a.1 _b.1) (omap id a) in
      (Ok ((Some <$> sorted) ++ filter (λ x, x = None) a), s)
  end.

End MoreStrategies.

(** [randomXORshift128 (n) ()] *)
Definition randomXORshift128 (n : Z) (st : xorshift128_state) :
  xorshift128_state :=
  foldl (λ st _, (xorshift128_rand st).2) st (upto n).

(** ** The test of util.test.ts *)

(** How [test ()] ends: all assertions hold, one fails with its message, or
    an allocation throws. *)
Inductive test_outcome :=
| all_tests_ok
| AssertionError (msg : string)
| test_RangeError.

(** [a[i] !== b[i]] negated, for an element of the reference array and a
    read of the typed array. *)
Definition strict_equal (v : value) (o : option Z) : bool :=
  match v, o with
  | VNum x, Some y => x =? y
  | VUndef, None => true
  | _, _ => false
  end.

(** [test ()] with the size [n]; the lines written with [console.log] are
    not modelled. *)
Definition test_of (n : Z) (seed : Z) : test_outcome :=
  match arrayFillB n with
  | RangeError => test_RangeError
  | Ok a =>
      match (AFB_x_AS_x_OPT mulberry32 n seed).1 with
      | RangeError => test_RangeError
      | Ok b =>
          if negb (Z.of_nat (length a) =? n) then
            AssertionError "Length mismatch on reference array"
          else if negb (Z.of_nat (length b) =? n) then
            AssertionError "Length mismatch on shuffled array"
          else
            let b := Array_sort numeric b in
            if forallb (λ i, strict_equal (arr_get a i) (u32_get b i))
                       (upto (Z.of_nat (length a)))
            then all_tests_ok
            else AssertionError
                   "The reference and shuffled array contain a different set of numbers"
      end
  end.

(** [test ()]: the size is [1000 * 1000 * 10]. *)
Definition test (seed : Z) : test_outcome := test_of (1000 * 1000 * 10) seed.

(** ** What the program writes *)

(** The text written to the standard output by a list of events. *)
Fixpoint stdout_of (evs : list event) : string :=
  match evs with
  | [] => ""
  | stdout_write s :: evs => s +:+ stdout_of evs
  | _ :: evs => stdout_of evs
  end.

(** ** Notions used to state the further properties *)

(** [k] successive draws from a random source, and the state left. *)
Fixpoint draws {G : Type} (rand : G → Q * G) (k : nat) (s : G) : list Q * G :=
  match k with
  | O => ([], s)
  | S k' =>
      let '(r, s) := rand s in
      let '(rs, s) := draws rand k' s in
      (r :: rs, s)
  end.

(** The order of the pairs of [AFIR_x_SORT]: by draw, and by index among
    equal draws. *)
Definition key_then_index (p q : Q * Z) : Prop :=
  (p.1 < q.1)%Q ∨ ((p.1 == q.1)%Q ∧ p.2 < q.2).

(** A comparator and an order agree on a pair [x], [y] met in this order
    in the array: [x] stays first only if it is below [y], and moves after
    [y] only if [y] is below it. *)
Definition sorts_by {A : Type} (cmp : A → A → Q) (R : relation A) (x y : A) :
  Prop :=
  (Qle_bool (cmp x y) 0 = true → R x y)
  ∧ (Qle_bool (cmp x y) 0 = false → R y x).

(** What the second loop of [BucketRadixShuffle] appends for a slot [v]:
    nothing for a falsy slot; otherwise the slot itself when slot 1 does not
    hold an array, and the elements [v[0] .. v[v.length - 1]] when it does,
    which are none for a number. *)
Definition scanned (bucket_at_one : bool) (v : value) : list value :=
  if truthy v then
    if bucket_at_one then
      match v with
      | VArr l => VNum <$> l
      | _ => []
      end
    else [v]
  else [].

(** ** Proof automation *)

(** Equations between exclusive-ors of the same words, bit by bit. *)
Ltac xor_bits :=
  apply Z.bits_inj'; intros ?n ?Hn; rewrite ?Z.lxor_spec;
  repeat match goal with
         | |- context [Z.testbit ?a ?n] => destruct (Z.testbit a n)
         end;
  reflexivity.

(** The numbers of a list are doubles in [[0,1)], by evaluation. *)
Ltac unit_interval_by_computation :=
  repeat first [apply Forall_nil_2 | apply Forall_cons_2];
  try (split; [vm_compute; reflexivity
              | split; [vm_compute; discriminate | vm_compute; reflexivity]]).

(** * Properties *)

(** ** Facts about the 32-bit operators *)

Lemma wrap_range x : 0 <= U32.wrap x < 2 ^ 32.
Proof. unfold U32.wrap. apply Z.mod_pos_bound. lia. Qed.

Lemma wrap_small x : 0 <= x < 2 ^ 32 -> U32.wrap x = x.
Proof. intros. unfold U32.wrap. now apply Z.mod_small. Qed.

Lemma wrap_wrap x : U32.wrap (U32.wrap x) = U32.wrap x.
Proof. unfold U32.wrap. apply Z.mod_mod. lia. Qed.

Lemma ToInt32_range x : - 2 ^ 31 <= JS.ToInt32 x < 2 ^ 31.
Proof.
  unfold JS.ToInt32. pose proof (wrap_range x) as H. unfold U32.wrap in H.
  destruct (Z.leb_spec (2 ^ 31) (x mod 2 ^ 32)); lia.
Qed.

Lemma wrap_ToInt32 x : U32.wrap (JS.ToInt32 x) = U32.wrap x.
Proof.
  unfold JS.ToInt32, U32.wrap.
  destruct (Z.leb_spec (2 ^ 31) (x mod 2 ^ 32)).
  - rewrite <- (Z.mod_add _ 1) by lia.
    replace (x mod 2 ^ 32 - 2 ^ 32 + 1 * 2 ^ 32) with (x mod 2 ^ 32) by lia.
    apply Z.mod_mod. lia.
  - apply Z.mod_mod. lia.
Qed.

Lemma wrap_lxor a b :
  U32.wrap (Z.lxor a b) = Z.lxor (U32.wrap a) (U32.wrap b).
Proof.
  unfold U32.wrap. apply Z.bits_inj'. intros n Hn.
  rewrite Z.lxor_spec, !Z.testbit_mod_pow2, Z.lxor_spec by lia.
  destruct (n <? 32); reflexivity.
Qed.

Lemma wrap_lor a b :
  U32.wrap (Z.lor a b) = Z.lor (U32.wrap a) (U32.wrap b).
Proof.
  unfold U32.wrap. apply Z.bits_inj'. intros n Hn.
  rewrite Z.lor_spec, !Z.testbit_mod_pow2, Z.lor_spec by lia.
  destruct (n <? 32); reflexivity.
Qed.

Lemma wrap_mul a b : U32.wrap (U32.wrap a * U32.wrap b) = U32.wrap (a * b).
Proof. unfold U32.wrap. symmetry. apply Z.mul_mod. lia. Qed.

Lemma wrap_add a b : U32.wrap (U32.wrap a + U32.wrap b) = U32.wrap (a + b).
Proof. unfold U32.wrap. symmetry. apply Z.add_mod. lia. Qed.

Lemma wrap_bxor a b :
  U32.wrap (JS.bxor a b) = Z.lxor (U32.wrap a) (U32.wrap b).
Proof. unfold JS.bxor. now rewrite wrap_lxor, !wrap_ToInt32. Qed.

Lemma wrap_bor a b :
  U32.wrap (JS.bor a b) = Z.lor (U32.wrap a) (U32.wrap b).
Proof. unfold JS.bor. now rewrite wrap_lor, !wrap_ToInt32. Qed.

Lemma wrap_imul a b : U32.wrap (JS.imul a b) = U32.wrap (a * b).
Proof. unfold JS.imul. rewrite wrap_ToInt32. apply wrap_mul. Qed.

Lemma ushr_wrap a k :
  0 <= k < 32 -> JS.ushr a k = Z.shiftr (U32.wrap a) k.
Proof.
  intros Hk. unfold JS.ushr, JS.ToUint32.
  rewrite (Z.mod_small k (2 ^ 32)) by lia.
  now rewrite (Z.mod_small k 32) by lia.
Qed.

Lemma ushr_range a k : 0 <= k < 32 -> 0 <= JS.ushr a k < 2 ^ 32.
Proof.
  intros Hk. rewrite ushr_wrap by assumption.
  pose proof (wrap_range a) as H.
  rewrite Z.shiftr_div_pow2 by lia. split.
  - apply Z.div_pos; lia.
  - apply Z.le_lt_trans with (U32.wrap a); [| lia].
    apply Z.div_le_upper_bound; [lia |].
    assert (1 <= 2 ^ k) by (apply (Z.pow_le_mono_r 2 0 k); lia). nia.
Qed.

Lemma round53_exact z : Z.abs z < 2 ^ 53 -> JS.round53 z = z.
Proof.
  intros H. unfold JS.round53.
  destruct (Z.ltb_spec (Z.abs z) (2 ^ 53)); [reflexivity | lia].
Qed.

Lemma add_exact a b : Z.abs (a + b) < 2 ^ 53 -> JS.add a b = a + b.
Proof. apply round53_exact. Qed.

(** ** The generator against its 32-bit description *)

Lemma Q_unit_interval (u : Z) :
  0 <= u < 2 ^ 32 -> (0 <= u # 4294967296)%Q /\ (u # 4294967296 < 1)%Q.
Proof.
  intros Hu. unfold Qle, Qlt. simpl. lia.
Qed.

Lemma mulberry32_output_range seed :
  (0 <= fst (mulberry32 seed))%Q /\ (fst (mulberry32 seed) < 1)%Q.
Proof.
  unfold mulberry32. cbv zeta. cbn [fst].
  apply Q_unit_interval, ushr_range. lia.
Qed.

Lemma shiftr_u32 x k :
  0 <= k < 32 ->
  U32.wrap (Z.shiftr (U32.wrap x) k) = Z.shiftr (U32.wrap x) k.
Proof.
  intros Hk. apply wrap_small.
  rewrite <- (ushr_wrap x k) by assumption. now apply ushr_range.
Qed.

(** [t ^ t >>> k] on the residue of [t]. *)
Lemma wrap_xorshift t k :
  0 <= k < 32 ->
  U32.wrap (JS.bxor t (JS.ushr t k)) =
  Z.lxor (U32.wrap t) (Z.shiftr (U32.wrap t) k).
Proof.
  intros Hk. rewrite wrap_bxor, ushr_wrap by assumption.
  now rewrite shiftr_u32.
Qed.

(** [t | c] on the residue of [t], for a small constant [c]. *)
Lemma wrap_bor_const t c :
  0 <= c < 2 ^ 32 -> U32.wrap (JS.bor t c) = Z.lor (U32.wrap t) c.
Proof. intros Hc. now rewrite wrap_bor, (wrap_small c). Qed.

(** [Math.imul (t ^ t >>> k, t | c)] on the residue of [t]. *)
Lemma wrap_round t k c :
  0 <= k < 32 -> 0 <= c < 2 ^ 32 ->
  U32.wrap (JS.imul (JS.bxor t (JS.ushr t k)) (JS.bor t c)) =
  U32.wrap (Z.lxor (U32.wrap t) (Z.shiftr (U32.wrap t) k) * Z.lor (U32.wrap t) c).
Proof.
  intros Hk Hc.
  now rewrite wrap_imul, <- wrap_mul, wrap_xorshift, wrap_bor_const.
Qed.

Lemma imul_range a b : - 2 ^ 31 <= JS.imul a b < 2 ^ 31.
Proof. apply ToInt32_range. Qed.

(** The sum [t + Math.imul (..)] of two 32-bit values is exact. *)
Lemma add_imul_exact a b c d :
  JS.add (JS.imul a b) (JS.imul c d) = JS.imul a b + JS.imul c d.
Proof.
  apply add_exact.
  pose proof (imul_range a b). pose proof (imul_range c d). lia.
Qed.

(** The numerator of the output, as the program computes it from the
    incremented seed [s], against the 32-bit description on the word
    [U32.wrap s]. *)
Lemma mulberry32_mix s u0 :
  U32.wrap s = u0 ->
  let t1 := JS.imul (JS.bxor s (JS.ushr s 15)) (JS.bor s 1) in
  let t2 := JS.bxor t1 (JS.add t1 (JS.imul (JS.bxor t1 (JS.ushr t1 7)) (JS.bor t1 61))) in
  let u1 := U32.wrap (Z.lxor u0 (Z.shiftr u0 15) * Z.lor u0 1) in
  let u2 := Z.lxor u1 (U32.wrap (u1 + U32.wrap (Z.lxor u1 (Z.shiftr u1 7) * Z.lor u1 61))) in
  JS.ushr (JS.bxor t2 (JS.ushr t2 14)) 0 = Z.lxor u2 (Z.shiftr u2 14).
Proof.
  intros Hs t1 t2 u1 u2.
  assert (H1 : U32.wrap t1 = u1).
  { subst t1 u1 u0. apply wrap_round; lia. }
  assert (H2 : U32.wrap t2 = u2).
  { subst t2 u2. rewrite wrap_bxor, H1. f_equal.
    subst t1. rewrite add_imul_exact.
    fold (JS.imul (JS.bxor s (JS.ushr s 15)) (JS.bor s 1)).
    rewrite <- wrap_add, H1, wrap_round, H1 by lia. reflexivity. }
  rewrite (ushr_wrap _ 0), Z.shiftr_0_r by lia.
  now rewrite wrap_xorshift, H2 by lia.
Qed.

(** Within the range where the seed is an exact double, one call of the
    program's generator and one call of the 32-bit generator agree. *)
Lemma mulberry32_exact seed :
  Z.abs (seed + 0x6D2B79F5) < 2 ^ 53 ->
  mulberry32 seed =
    (fst (U32.mulberry32_spec (U32.wrap seed)), seed + 0x6D2B79F5)
  /\ U32.wrap (seed + 0x6D2B79F5) = snd (U32.mulberry32_spec (U32.wrap seed)).
Proof.
  intros Hexact.
  assert (Hw : U32.wrap (seed + 0x6D2B79F5) =
               U32.wrap (U32.wrap seed + 0x6D2B79F5)).
  { rewrite <- (wrap_add seed), <- (wrap_add (U32.wrap seed)), wrap_wrap.
    reflexivity. }
  split; [| exact Hw].
  unfold mulberry32, U32.mulberry32_spec. cbv zeta. cbn [fst].
  rewrite add_exact by assumption. f_equal. f_equal.
  apply mulberry32_mix. exact Hw.
Qed.

(** The same over [k] successive calls: the seed grows by the increment at
    each call and stays exact. *)
Lemma mulberry32_draws_exact k : ∀ seed,
  - 2 ^ 53 < seed -> seed + Z.of_nat k * 0x6D2B79F5 < 2 ^ 53 ->
  mulberry32_draws k seed =
    (fst (U32.mulberry32_spec_draws k (U32.wrap seed)),
     seed + Z.of_nat k * 0x6D2B79F5)
  /\ U32.wrap (seed + Z.of_nat k * 0x6D2B79F5) =
     snd (U32.mulberry32_spec_draws k (U32.wrap seed)).
Proof.
  induction k as [| k IH]; intros seed Hlo Hhi.
  - cbn [mulberry32_draws U32.mulberry32_spec_draws fst snd].
    rewrite Z.add_0_r. split; reflexivity.
  - cbn [mulberry32_draws U32.mulberry32_spec_draws].
    destruct (mulberry32_exact seed) as [Hcall Hstate]; [lia |].
    rewrite Hcall.
    destruct (U32.mulberry32_spec (U32.wrap seed)) as [r st] eqn:Hspec.
    cbn [fst snd] in *. subst st.
    destruct (IH (seed + 0x6D2B79F5)) as [Hdraws Hlast]; [lia | lia |].
    rewrite Hdraws.
    destruct (U32.mulberry32_spec_draws k (U32.wrap (seed + 0x6D2B79F5)))
      as [rs st] eqn:Hrest.
    cbn [fst snd] in *.
    replace (seed + 0x6D2B79F5 + Z.of_nat k * 0x6D2B79F5)
      with (seed + Z.of_nat (S k) * 0x6D2B79F5) in * by lia.
    split; [reflexivity | exact Hlast].
Qed.

(** C4 (as amended): the state of [mulberry32] is a JavaScript number that
    grows by [0x6D2B79F5] at each call and is never reduced modulo [2^32];
    the mixing rounds read it modulo [2^32].  While the incremented state
    stays below [2^53] in magnitude, a call returns what the generator on
    one unsigned 32-bit word with wraparound returns, the states are
    congruent modulo [2^32], and so over any number of successive calls;
    the returned value is a nonnegative 32-bit integer divided by [2^32],
    in [[0,1)]. *)
Theorem mulberry32_refines_u32 (seed : Z) (k : nat) :
  - 2 ^ 53 < seed -> seed + Z.of_nat (S k) * 0x6D2B79F5 < 2 ^ 53 ->
  mulberry32 seed =
    (fst (U32.mulberry32_spec (U32.wrap seed)), seed + 0x6D2B79F5)
  /\ U32.wrap (snd (mulberry32 seed)) =
     snd (U32.mulberry32_spec (U32.wrap seed))
  /\ fst (mulberry32_draws (S k) seed) =
     fst (U32.mulberry32_spec_draws (S k) (U32.wrap seed))
  /\ (∃ u, 0 <= u < 2 ^ 32 /\ fst (mulberry32 seed) = u # 4294967296)
  /\ (0 <= fst (mulberry32 seed))%Q /\ (fst (mulberry32 seed) < 1)%Q.
Proof.
  intros Hlo Hhi.
  destruct (mulberry32_exact seed) as [Hcall Hstate]; [lia |].
  destruct (mulberry32_draws_exact (S k) seed Hlo Hhi) as [Hdraws _].
  split; [exact Hcall |].
  split; [rewrite Hcall; exact Hstate |].
  split; [rewrite Hdraws; reflexivity |].
  split; [| apply mulberry32_output_range].
  eexists. split; [| unfold mulberry32; cbv zeta; cbn [fst]; reflexivity].
  apply ushr_range. lia.
Qed.

Lemma mulberry32_refines_u32_witness :
  mulberry32 1750000000000 =
    (fst (U32.mulberry32_spec (U32.wrap 1750000000000)), 1751831565813)
  /\ fst (mulberry32_draws 3 1750000000000) =
     fst (U32.mulberry32_spec_draws 3 (U32.wrap 1750000000000)).
Proof.
  destruct (mulberry32_refines_u32 1750000000000 2) as (H1 & _ & H3 & _);
    [lia | lia |].
  split; [exact H1 | exact H3].
Defined.

(** C4 (as stated) fails.  The stored state is not a 32-bit word: from a
    timestamp seed it is above [2^32] and a call does not reduce it, so it
    is not the state of the 32-bit generator.  Once a sum passes [2^53] it
    is rounded, and the output leaves the sequence of the 32-bit generator:
    at the seed [2^53] the two outputs differ. *)
Lemma mulberry32_state_is_not_u32 :
  ¬ is_u32 (snd (mulberry32 1750000000000))
  /\ snd (mulberry32 1750000000000)
     ≠ snd (U32.mulberry32_spec (U32.wrap 1750000000000))
  /\ snd (mulberry32 9007199254740992) = 9007201086306804
  /\ ¬ (fst (mulberry32 9007199254740992) ==
        fst (U32.mulberry32_spec (U32.wrap 9007199254740992)))%Q.
Proof.
  split; [vm_compute; intros [_ H]; discriminate H |].
  split; [vm_compute; discriminate |].
  split; [vm_compute; reflexivity |].
  intros H. vm_compute in H. discriminate H.
Qed.

(** ** Rounding to a double *)

Lemma Qpower_2_pos e : (0 < 2 ^ e)%Q.
Proof. apply Qpower_0_lt. reflexivity. Qed.

Lemma Qpower_2_Z n : 0 <= n → (2 ^ n == inject_Z (2 ^ n))%Q.
Proof. intros Hn. now rewrite Zpower_Qpower. Qed.

Lemma Qpower_2_plus a b : (2 ^ (a + b) == 2 ^ a * 2 ^ b)%Q.
Proof. apply Qpower_plus. discriminate. Qed.

Lemma Qpower_2_succ e : (2 ^ (e + 1) == 2 * 2 ^ e)%Q.
Proof. rewrite Qpower_2_plus. change (2 ^ 1)%Q with 2%Q. ring. Qed.

(** A positive rational lies between the powers of two of its numerator
    and of its denominator. *)
Lemma log2_quotient (x : Q) :
  (0 < x)%Q →
  let d := Z.log2 (Qnum x) - Z.log2 (Z.pos (Qden x)) in
  (2 ^ (d - 1) <= x)%Q ∧ (x < 2 ^ (d + 1))%Q.
Proof.
  intros Hx. destruct x as [p q]. cbn [Qnum Qden].
  assert (Hp : 0 < p) by (unfold Qlt in Hx; simpl in Hx; lia).
  pose proof (Z.log2_spec p Hp) as [Hp1 Hp2].
  pose proof (Z.log2_spec (Z.pos q) ltac:(lia)) as [Hq1 Hq2].
  pose proof (Z.log2_nonneg p) as Ha. pose proof (Z.log2_nonneg (Z.pos q)) as Hb.
  set (a := Z.log2 p) in *. set (b := Z.log2 (Z.pos q)) in *. cbv zeta.
  assert (Hpq : (p # q == inject_Z p / inject_Z (Z.pos q))%Q)
    by (rewrite Qmake_Qdiv; reflexivity).
  assert (Hqpos : (0 < inject_Z (Z.pos q))%Q) by reflexivity.
  assert (Hpow : ∀ n, 0 <= n → (0 < inject_Z (2 ^ n))%Q).
  { intros n Hn. change 0%Q with (inject_Z 0). rewrite <- Zlt_Qlt.
    now apply Z.pow_pos_nonneg. }
  split.
  - replace (a - b - 1) with (a + - (b + 1)) by lia.
    rewrite Qpower_2_plus, Qpower_opp.
    rewrite (Qpower_2_Z a), (Qpower_2_Z (b + 1)), Hpq by lia.
    apply Qle_shift_div_l; [exact Hqpos |].
    pose proof (Hpow (b + 1) ltac:(lia)) as HB.
    setoid_replace (inject_Z (2 ^ a) * / inject_Z (2 ^ (b + 1)) * inject_Z (Z.pos q))%Q
      with (inject_Z (2 ^ a) * inject_Z (Z.pos q) / inject_Z (2 ^ (b + 1)))%Q
      using relation Qeq by (field; lra).
    apply Qle_shift_div_r; [exact HB |].
    rewrite <- !inject_Z_mult, <- Zle_Qle.
    rewrite Z.pow_succ_r in Hq2 by lia.
    rewrite (Z.pow_add_r 2 b 1) by lia. change (2 ^ 1) with 2.
    apply Z.le_trans with (p * Z.pos q); [nia |].
    apply Z.mul_le_mono_nonneg_l; lia.
  - replace (a - b + 1) with ((a + 1) + - b) by lia.
    rewrite Qpower_2_plus, Qpower_opp.
    rewrite (Qpower_2_Z (a + 1)), (Qpower_2_Z b), Hpq by lia.
    apply Qlt_shift_div_r; [exact Hqpos |].
    pose proof (Hpow b ltac:(lia)) as HB.
    setoid_replace (inject_Z (2 ^ (a + 1)) * / inject_Z (2 ^ b) * inject_Z (Z.pos q))%Q
      with (inject_Z (2 ^ (a + 1)) * inject_Z (Z.pos q) / inject_Z (2 ^ b))%Q
      using relation Qeq by (field; lra).
    apply Qlt_shift_div_l; [exact HB |].
    rewrite <- !inject_Z_mult, <- Zlt_Qlt.
    rewrite Z.pow_succ_r in Hp2 by lia.
    rewrite (Z.pow_add_r 2 a 1) by lia. change (2 ^ 1) with 2.
    apply Z.lt_le_trans with (2 ^ a * 2 * 2 ^ b); [nia |].
    apply Z.mul_le_mono_nonneg_l; lia.
Qed.

Lemma ilog2_spec (x : Q) :
  (0 < x)%Q → (2 ^ JS.ilog2 x <= x)%Q ∧ (x < 2 ^ (JS.ilog2 x + 1))%Q.
Proof.
  intros Hx. destruct (log2_quotient x Hx) as [Hlo Hhi]. cbv zeta in *.
  unfold JS.ilog2.
  destruct (Qle_bool (2 ^ (Z.log2 (Qnum x) - Z.log2 (Z.pos (Qden x)))) x) eqn:Ht.
  - apply Qle_bool_iff in Ht. now split.
  - split; [exact Hlo |].
    replace (Z.log2 (Qnum x) - Z.log2 (Z.pos (Qden x)) - 1 + 1)
      with (Z.log2 (Qnum x) - Z.log2 (Z.pos (Qden x))) by lia.
    apply Qnot_le_lt. intros Hle. apply Qle_bool_iff in Hle. congruence.
Qed.

Lemma round_half_even_bounds (y : Q) :
  (y - (1 # 2) <= inject_Z (JS.round_half_even y))%Q
  ∧ (inject_Z (JS.round_half_even y) <= y + (1 # 2))%Q.
Proof.
  unfold JS.round_half_even.
  pose proof (Qfloor_le y) as Hlo. pose proof (Qlt_floor y) as Hhi.
  rewrite inject_Z_plus in Hhi. change (inject_Z 1) with 1%Q in Hhi.
  destruct (Qcompare_spec (y - inject_Z (Qfloor y)) (1 # 2)) as [He | Hl | Hg].
  - destruct (Z.even (Qfloor y)); rewrite ?inject_Z_plus;
      change (inject_Z 1) with 1%Q; split; lra.
  - split; lra.
  - rewrite inject_Z_plus. change (inject_Z 1) with 1%Q. split; lra.
Qed.

Lemma Z_of_Q_bounds (m n : Z) :
  (inject_Z n - (1 # 2) <= inject_Z m)%Q → (inject_Z m <= inject_Z n + (1 # 2))%Q →
  m = n.
Proof.
  intros Hlo Hhi.
  destruct (Z.lt_trichotomy m n) as [Hlt | [Heq | Hgt]]; [| exact Heq |]; exfalso.
  - assert (H : m + 1 <= n) by lia. rewrite Zle_Qle, inject_Z_plus in H.
    change (inject_Z 1) with 1%Q in H. lra.
  - assert (H : n + 1 <= m) by lia. rewrite Zle_Qle, inject_Z_plus in H.
    change (inject_Z 1) with 1%Q in H. lra.
Qed.

(** An integer is its own rounding. *)
Lemma round_half_even_Z (y : Q) (n : Z) :
  (y == inject_Z n)%Q → JS.round_half_even y = n.
Proof.
  intros Hy. destruct (round_half_even_bounds y) as [Hlo Hhi].
  apply Z_of_Q_bounds; lra.
Qed.

Lemma round_half_even_nonneg (y : Q) : (0 <= y)%Q → 0 <= JS.round_half_even y.
Proof.
  intros Hy. destruct (round_half_even_bounds y) as [Hlo _].
  destruct (Z.le_gt_cases 0 (JS.round_half_even y)) as [H | H]; [exact H |].
  exfalso. assert (H' : JS.round_half_even y + 1 <= 0) by lia.
  rewrite Zle_Qle, inject_Z_plus in H'.
  change (inject_Z 1) with 1%Q in H'. change (inject_Z 0) with 0%Q in H'. lra.
Qed.

(** The rounding of a non-negative number, unfolded. *)
Lemma round_double_nonneg_eq (x : Q) :
  (0 <= x)%Q →
  let e := Z.max (JS.ilog2 (Qabs x) - 52) (-1074) in
  JS.round_double x = (inject_Z (JS.round_half_even (Qabs x / 2 ^ e)) * 2 ^ e)%Q
  ∧ (Qabs x == x)%Q.
Proof.
  intros Hx. cbv zeta. unfold JS.round_double.
  assert (Hb : Qle_bool 0 x = true) by now apply Qle_bool_iff.
  rewrite Hb. split; [reflexivity | now apply Qabs_pos].
Qed.

Lemma round_double_nonneg (x : Q) : (0 <= x)%Q → (0 <= JS.round_double x)%Q.
Proof.
  intros Hx. destruct (round_double_nonneg_eq x Hx) as [-> Habs].
  apply Qmult_le_0_compat.
  - change 0%Q with (inject_Z 0). rewrite <- Zle_Qle.
    apply round_half_even_nonneg.
    apply Qle_shift_div_l; [apply Qpower_2_pos |]. lra.
  - apply Qlt_le_weak, Qpower_2_pos.
Qed.

(** A rounding moves a number by half a unit in the last place at most. *)
Lemma round_double_error (x : Q) :
  (0 <= x)%Q →
  let e := Z.max (JS.ilog2 (Qabs x) - 52) (-1074) in
  (JS.round_double x <= x + 2 ^ e * (1 # 2))%Q.
Proof.
  intros Hx. cbv zeta.
  destruct (round_double_nonneg_eq x Hx) as [-> Habs]. cbv zeta.
  set (e := Z.max _ _).
  pose proof (Qpower_2_pos e) as HP.
  destruct (round_half_even_bounds (Qabs x / 2 ^ e)) as [_ Hhi].
  apply (Qmult_le_compat_r _ _ (2 ^ e)) in Hhi; [| lra].
  assert (E : ((Qabs x / 2 ^ e + (1 # 2)) * 2 ^ e == x + 2 ^ e * (1 # 2))%Q)
    by (rewrite Habs; field; lra).
  now rewrite E in Hhi.
Qed.

Lemma round_double_zero (x : Q) : (x == 0)%Q → (JS.round_double x == 0)%Q.
Proof.
  intros Hx. destruct (round_double_nonneg_eq x) as [-> Habs]; [lra |].
  cbv zeta. set (e := Z.max _ _). pose proof (Qpower_2_pos e) as HP.
  rewrite (round_half_even_Z _ 0); [ring |].
  rewrite Habs, Hx. change (inject_Z 0) with 0%Q. field. lra.
Qed.

(** The product of a number of [[0,1)] that is at most [1 - 2^-53], the
    largest double below 1, and an integer [k >= 1] rounds to a double
    below [k]. *)
Lemma round_double_product_below (r : Q) (k : Z) :
  (0 <= r)%Q → (r <= 1 - (1 # 9007199254740992))%Q → 1 <= k →
  (JS.round_double (r * inject_Z k) < inject_Z k)%Q.
Proof.
  intros Hr0 Hr1 Hk.
  assert (Hk' : (1 <= inject_Z k)%Q)
    by (change 1%Q with (inject_Z 1); now rewrite <- Zle_Qle).
  set (x := (r * inject_Z k)%Q).
  assert (Hx0 : (0 <= x)%Q) by (apply Qmult_le_0_compat; lra).
  assert (Hx1 : (x <= inject_Z k - inject_Z k * (1 # 9007199254740992))%Q).
  { unfold x. setoid_replace (inject_Z k - inject_Z k * (1 # 9007199254740992))%Q
      with ((1 - (1 # 9007199254740992)) * inject_Z k)%Q using relation Qeq by ring.
    apply Qmult_le_compat_r; lra. }
  destruct (Qlt_le_dec 0 x) as [Hpos | Hzero];
    [| rewrite (round_double_zero x) by lra; lra].
  pose proof (round_double_error x Hx0) as Herr. cbv zeta in Herr.
  destruct (round_double_nonneg_eq x Hx0) as [_ Habs].
  set (e := Z.max (JS.ilog2 (Qabs x) - 52) (-1074)) in *.
  assert (He : (4503599627370496 * 2 ^ e < inject_Z k)%Q).
  { destruct (Z.max_spec (JS.ilog2 (Qabs x) - 52) (-1074)) as [[_ Hm] | [_ Hm]];
        fold e in Hm; rewrite Hm.
    - apply Qlt_le_trans with 1%Q; [vm_compute; reflexivity | exact Hk'].
    - destruct (ilog2_spec (Qabs x)) as [Hlo _]; [lra |].
        setoid_replace (4503599627370496 * 2 ^ (JS.ilog2 (Qabs x) - 52))%Q
          with (2 ^ JS.ilog2 (Qabs x))%Q using relation Qeq.
        * lra.
        * replace (JS.ilog2 (Qabs x) - 52) with (JS.ilog2 (Qabs x) + -52) by lia.
          rewrite Qpower_2_plus. change (2 ^ (-52))%Q with (1 # 4503599627370496)%Q.
          field. }
  clearbody x e. revert Herr He. generalize (JS.round_double x) (2 ^ e)%Q.
  intros y P Herr He. clear Habs Hk. revert Hk' Hx1 He.
  generalize (inject_Z k). intros K HK Hx1 He. lra.
Qed.

(** A double below 1 is at most [1 - 2^-53]. *)
Lemma double_below_one (r : Q) :
  JS.is_double r → (0 <= r)%Q → (r < 1)%Q →
  (r <= 1 - (1 # 9007199254740992))%Q.
Proof.
  unfold JS.is_double. intros Hd H0 H1.
  destruct (Qlt_le_dec 0 r) as [Hpos | Hzero]; [| lra].
  destruct (round_double_nonneg_eq r H0) as [Heq Habs]. cbv zeta in Heq.
  rewrite Heq in Hd. clear Heq.
  destruct (ilog2_spec (Qabs r)) as [Hlo Hhi]; [lra |].
  set (L := JS.ilog2 (Qabs r)) in *.
  assert (HL : L < 0).
  { apply (Qpower_lt_compat_l_inv 2); [| reflexivity].
    change (2 ^ 0)%Q with 1%Q. lra. }
  set (e := Z.max (L - 52) (-1074)) in *.
  destruct (Z.eq_dec e (-53)) as [He | He].
  - rewrite He in Hd. change (2 ^ (-53))%Q with (1 # 9007199254740992)%Q in Hd.
    set (m := JS.round_half_even _) in *.
    assert (Hm : m < 9007199254740992).
    { rewrite Zlt_Qlt. change (inject_Z 9007199254740992) with 9007199254740992%Q. lra. }
    assert (Hm' : m <= 9007199254740991) by lia.
    rewrite Zle_Qle in Hm'.
    change (inject_Z 9007199254740991) with 9007199254740991%Q in Hm'. lra.
  - assert (HL2 : L + 1 <= -1) by lia.
    pose proof (Qpower_le_compat_l 2 _ _ HL2 ltac:(discriminate)) as Hpow.
    change (2 ^ (-1))%Q with (1 # 2)%Q in Hpow. lra.
Qed.

(** A non-negative integer below [2^53] divided by a power of two, down
    to [2^-1074], is a double. *)
Lemma dyadic_is_double (x : Q) (u n : Z) :
  0 <= u < 2 ^ 53 → 0 <= n <= 1074 → (x == inject_Z u / 2 ^ n)%Q →
  JS.is_double x.
Proof.
  intros Hu Hn Hx. unfold JS.is_double.
  pose proof (Qpower_2_pos n) as Hpn.
  assert (Hu0 : (0 <= inject_Z u)%Q)
    by (change 0%Q with (inject_Z 0); rewrite <- Zle_Qle; lia).
  assert (Hx0 : (0 <= x)%Q).
  { rewrite Hx. apply Qle_shift_div_l; [exact Hpn | lra]. }
  destruct (Qlt_le_dec 0 x) as [Hpos | Hzero];
    [| rewrite (round_double_zero x) by lra; lra].
  destruct (round_double_nonneg_eq x Hx0) as [-> Habs]. cbv zeta.
  destruct (ilog2_spec (Qabs x)) as [Hlo _]; [lra |].
  set (L := JS.ilog2 (Qabs x)) in *.
  assert (HL : L < 53 - n).
  { apply (Qpower_lt_compat_l_inv 2); [| reflexivity].
    apply Qle_lt_trans with x; [lra |].
    replace (53 - n) with (53 + - n) by lia.
    rewrite Hx, Qpower_2_plus, Qpower_opp.
    apply Qmult_lt_compat_r; [now apply Qinv_lt_0_compat |].
    change (2 ^ 53)%Q with (inject_Z (2 ^ 53)). rewrite <- Zlt_Qlt. lia. }
  set (e := Z.max (L - 52) (-1074)).
  assert (He : 0 <= - n - e) by lia.
  pose proof (Qpower_2_pos e) as Hpe.
  assert (Hscaled : (Qabs x / 2 ^ e == inject_Z (u * 2 ^ (- n - e)))%Q).
  { rewrite Habs, Hx, inject_Z_mult, <- Qpower_2_Z by exact He.
    replace (- n - e) with (- n + - e) by lia.
    rewrite Qpower_2_plus, !Qpower_opp. field. split; lra. }
  rewrite (round_half_even_Z _ _ Hscaled).
  rewrite Hx, inject_Z_mult, <- Qpower_2_Z by exact He.
  replace (- n - e) with (- n + - e) by lia.
  rewrite Qpower_2_plus, !Qpower_opp. field. split; lra.
Qed.

(** The outputs of [mulberry32], 32-bit integers divided by [2^32], are
    doubles. *)
Lemma word_fraction_is_double (u : Z) :
  0 <= u < 2 ^ 32 → JS.is_double (u # 4294967296).
Proof.
  intros Hu. apply (dyadic_is_double _ u 32); [lia | lia |].
  rewrite (Qmake_Qdiv u 4294967296). reflexivity.
Qed.

(** The rounding of a negative number. *)
Lemma round_double_negative (x : Q) : (x < 0)%Q → (JS.round_double x <= 0)%Q.
Proof.
  intros Hx. unfold JS.round_double.
  assert (Hb : Qle_bool 0 x = false).
  { destruct (Qle_bool 0 x) eqn:Hb; [| reflexivity].
    apply Qle_bool_iff in Hb. lra. }
  rewrite Hb. set (e := Z.max _ _). pose proof (Qpower_2_pos e) as HP.
  assert (Hm : (0 <= inject_Z (JS.round_half_even (Qabs x / 2 ^ e)))%Q).
  { change 0%Q with (inject_Z 0). rewrite <- Zle_Qle.
    apply round_half_even_nonneg.
    apply Qle_shift_div_l; [exact HP |]. rewrite Qmult_0_l. apply Qabs_nonneg. }
  assert (Hprod : (0 <= inject_Z (JS.round_half_even (Qabs x / 2 ^ e)) * 2 ^ e)%Q)
    by (apply Qmult_le_0_compat; lra).
  lra.
Qed.

(** A number that is at least the smallest positive double, [2^-1074],
    does not round to 0. *)
Lemma round_double_positive (x : Q) :
  (2 ^ (-1074) <= x)%Q → (0 < JS.round_double x)%Q.
Proof.
  intros Hx. pose proof (Qpower_2_pos (-1074)) as Hmin.
  assert (Hx0 : (0 < x)%Q) by lra.
  destruct (round_double_nonneg_eq x) as [-> Habs]; [lra |]. cbv zeta.
  destruct (ilog2_spec (Qabs x)) as [Hlo _]; [lra |].
  set (L := JS.ilog2 (Qabs x)) in *. set (e := Z.max (L - 52) (-1074)).
  pose proof (Qpower_2_pos e) as HP.
  assert (Hscaled : (1 <= Qabs x / 2 ^ e)%Q).
  { apply Qle_shift_div_l; [exact HP |]. rewrite Qmult_1_l, Habs.
    destruct (Z.max_spec (L - 52) (-1074)) as [[_ Hm] | [_ Hm]];
      fold e in Hm; rewrite Hm; [exact Hx |].
    apply Qle_trans with (2 ^ L)%Q; [| lra].
    apply Qpower_le_compat_l; [lia | discriminate]. }
  destruct (round_half_even_bounds (Qabs x / 2 ^ e)) as [Hm _].
  set (m := JS.round_half_even _) in *.
  assert (Hm1 : 1 <= m).
  { destruct (Z.le_gt_cases 1 m) as [H | H]; [exact H |]. exfalso.
    assert (H' : m <= 0) by lia. rewrite Zle_Qle in H'.
    change (inject_Z 0) with 0%Q in H'. lra. }
  rewrite Zle_Qle in Hm1. change (inject_Z 1) with 1%Q in Hm1.
  apply Qmult_lt_0_compat; lra.
Qed.

(** A non-negative double is a multiple of [2^-1074]. *)
Lemma double_grid (r : Q) :
  JS.is_double r → (0 <= r)%Q → ∃ m : Z, (r == inject_Z m * 2 ^ (-1074))%Q.
Proof.
  unfold JS.is_double. intros Hd H0.
  destruct (round_double_nonneg_eq r H0) as [Heq _]. cbv zeta in Heq.
  rewrite Heq in Hd. clear Heq.
  set (e := Z.max (JS.ilog2 (Qabs r) - 52) (-1074)) in *.
  set (m := JS.round_half_even _) in *.
  exists (m * 2 ^ (e + 1074)).
  rewrite <- Hd, inject_Z_mult, <- Qpower_2_Z by lia.
  rewrite <- Qmult_assoc, <- Qpower_2_plus.
  now replace (e + 1074 + -1074) with e by lia.
Qed.

(** The sign of the difference of two doubles is not lost when the
    difference is rounded. *)
Lemma diff_sign (a b : Q) :
  JS.is_double a → JS.is_double b → (0 <= a)%Q → (0 <= b)%Q →
  Qle_bool (JS.diff a b) 0 = true ↔ (a <= b)%Q.
Proof.
  intros Ha Hb Ha0 Hb0. rewrite Qle_bool_iff. unfold JS.diff. split.
  - intros Hle. apply Qnot_lt_le. intros Hlt.
    destruct (double_grid a Ha Ha0) as [ma Hma].
    destruct (double_grid b Hb Hb0) as [mb Hmb].
    pose proof (Qpower_2_pos (-1074)) as Hmin.
    assert (Hm : mb + 1 <= ma).
    { destruct (Z.le_gt_cases (mb + 1) ma) as [H | H]; [exact H |]. exfalso.
      assert (H' : ma <= mb) by lia. rewrite Zle_Qle in H'.
      apply (Qmult_le_compat_r _ _ (2 ^ (-1074))) in H'; lra. }
    rewrite Zle_Qle, inject_Z_plus in Hm. change (inject_Z 1) with 1%Q in Hm.
    apply (Qmult_le_compat_r _ _ (2 ^ (-1074))) in Hm; [| lra].
    assert (Hx : (2 ^ (-1074) <= a - b)%Q).
    { rewrite Hma, Hmb. revert Hm. generalize (2 ^ (-1074))%Q. intros P Hm.
      setoid_replace ((inject_Z mb + 1) * P)%Q with (inject_Z mb * P + P)%Q
        using relation Qeq in Hm by ring. lra. }
    pose proof (round_double_positive (a - b) Hx). lra.
  - intros Hle. destruct (Qlt_le_dec (a - b) 0) as [Hneg | Hzero].
    + now apply round_double_negative.
    + rewrite (round_double_zero (a - b)) by lra. lra.
Qed.

(** Neither is the sign of a difference of integers. *)
Lemma round53_sign (z : Z) : JS.round53 z <= 0 ↔ z <= 0.
Proof.
  unfold JS.round53.
  destruct (Z.ltb_spec (Z.abs z) (2 ^ 53)) as [Hs | Hbig]; [reflexivity |].
  cbv zeta.
  set (a := Z.abs z) in *. set (e := Z.log2 a - 52).
  assert (Ha : 0 < a) by lia.
  pose proof (Z.log2_spec a Ha) as [Hlo _].
  assert (Hlog : 53 <= Z.log2 a).
  { destruct (Z.le_gt_cases 53 (Z.log2 a)) as [H | H]; [exact H |]. exfalso.
    pose proof (Z.log2_spec a Ha) as [_ Hhi].
    assert (2 ^ Z.succ (Z.log2 a) <= 2 ^ 53) by (apply Z.pow_le_mono_r; lia).
    lia. }
  assert (He : 0 < 2 ^ e) by (apply Z.pow_pos_nonneg; lia).
  assert (Hq : 1 <= a / 2 ^ e).
  { apply Z.div_le_lower_bound; [exact He |].
    apply Z.le_trans with (2 ^ Z.log2 a); [| exact Hlo].
    rewrite Z.mul_1_r. apply Z.pow_le_mono_r; lia. }
  set (q := a / 2 ^ e) in *.
  set (q' := if a mod 2 ^ e <? 2 ^ (e - 1) then q
             else if 2 ^ (e - 1) <? a mod 2 ^ e then q + 1
             else if Z.even q then q else q + 1).
  assert (Hq' : 1 <= q').
  { unfold q'. repeat destruct (_ <? _); try destruct (Z.even q); lia. }
  assert (Hprod : 0 < q' * 2 ^ e) by nia.
  destruct (Z.sgn_spec z) as [[Hz ->] | [[Hz ->] | [Hz ->]]]; subst a; lia.
Qed.

(** ** Loops, indices and array updates *)

Lemma foldl_invariant {A B} (P : A → Prop) (f : A → B → A) (l : list B) :
  ∀ a, P a → (∀ a x, x ∈ l → P a → P (f a x)) → P (foldl f a l).
Proof.
  induction l as [| x l IH]; intros a Ha Hstep; simpl; [exact Ha |].
  apply IH.
  - apply Hstep; [left | exact Ha].
  - intros a' y Hy. apply Hstep. now right.
Qed.

Lemma elem_of_upto i n : i ∈ upto n ↔ 0 <= i < n.
Proof. unfold upto. rewrite elem_of_seqZ. lia. Qed.

Lemma elem_of_downfrom i n : i ∈ downfrom n ↔ 1 <= i < n.
Proof. unfold downfrom. rewrite elem_of_reverse, elem_of_seqZ. lia. Qed.

(** [Math.floor (r * k)] is an index below [k]: the double product of a
    double below 1 and [k] never rounds up to [k]. *)
Lemma floor_mul_range r k :
  unit_interval r → 0 < k → 0 <= floor_mul r k < k.
Proof.
  intros (Hd & H0 & H1) Hk. unfold floor_mul, JS.mul.
  pose proof (double_below_one r Hd H0 H1) as Hmax.
  assert (Hk' : (0 <= inject_Z k)%Q)
    by (change 0%Q with (inject_Z 0); rewrite <- Zle_Qle; lia).
  split.
  - rewrite <- (Qfloor_Z 0). apply Qfloor_resp_le.
    change (inject_Z 0) with 0%Q. apply round_double_nonneg.
    now apply Qmult_le_0_compat.
  - rewrite Zlt_Qlt.
    apply Qle_lt_trans with (JS.round_double (r * inject_Z k)); [apply Qfloor_le |].
    apply round_double_product_below; [exact H0 | exact Hmax | lia].
Qed.

(** Overwriting position [i], which held [x], with [y] trades one [x] for
    one [y]. *)
Lemma insert_trade {A} (l : list A) (i : nat) (x y : A) :
  l !! i = Some x → x :: <[i:=y]> l ≡ₚ y :: l.
Proof.
  intros Hi.
  assert (Hlt : (i < length l)%nat) by (eapply lookup_lt_Some; eauto).
  rewrite insert_take_drop by exact Hlt.
  rewrite <- (take_drop_middle l i x Hi) at 3.
  rewrite <- !Permutation_middle. apply perm_swap.
Qed.

(** The three statements [t = a[i]; a[i] = a[j]; a[j] = t] on a list. *)
Lemma insert_swap {A} (l : list A) (i j : nat) (xi xj : A) :
  l !! i = Some xi → l !! j = Some xj →
  <[j:=xi]> (<[i:=xj]> l) ≡ₚ l.
Proof.
  intros Hi Hj.
  assert (Hlt : (i < length l)%nat) by (eapply lookup_lt_Some; eauto).
  assert (Hj' : <[i:=xj]> l !! j = Some xj).
  { destruct (decide (i = j)) as [-> | Hne].
    - now apply list_lookup_insert_eq.
    - now rewrite list_lookup_insert_ne. }
  apply (Permutation_cons_inv (a := xj)).
  rewrite (insert_trade _ j xj xi Hj').
  apply (insert_trade l i xi xj Hi).
Qed.

(** A loop that stores [g i] at every index below [k] of a fresh array. *)
Lemma fill_loop {A} (set : list A → Z → list A) (g : Z → A) (d : A) :
  (∀ a i, 0 <= i < Z.of_nat (length a) → set a i = <[Z.to_nat i := g i]> a) →
  ∀ (N k : nat), (k ≤ N)%nat →
  foldl set (replicate N d) (seqZ 0 (Z.of_nat k)) =
  (g <$> seqZ 0 (Z.of_nat k)) ++ replicate (N - k) d.
Proof.
  intros Hset N k. induction k as [| k IH]; intros Hk.
  - simpl. now rewrite Nat.sub_0_r.
  - rewrite seqZ_S, foldl_snoc, fmap_app, IH by lia.
    rewrite Hset.
    2:{ rewrite length_app, length_fmap, length_seqZ, length_replicate. lia. }
    replace (Z.to_nat (0 + Z.of_nat k)) with
      (length (g <$> seqZ 0 (Z.of_nat k)) + 0)%nat
      by (rewrite length_fmap, length_seqZ; lia).
    rewrite insert_app_r.
    replace (N - k)%nat with (S (N - S k)) by lia.
    simpl. now rewrite <- app_assoc.
Qed.

Lemma fill_successors n :
  (λ i, i + 1) <$> seqZ 0 n = seqZ 1 n.
Proof.
  change (seqZ 1 n) with (seqZ (1 + 0) n).
  rewrite <- (fmap_add_seqZ 1 0 n). apply list_fmap_ext.
  intros _ i _. lia.
Qed.

(** Two loops over the same indices keep a relation between their states. *)
Lemma foldl_related {A A' B} (R : A → A' → Prop)
  (f : A → B → A) (f' : A' → B → A') (l : list B) :
  ∀ a a', R a a' → (∀ a a' x, x ∈ l → R a a' → R (f a x) (f' a' x)) →
  R (foldl f a l) (foldl f' a' l).
Proof.
  induction l as [| x l IH]; intros a a' Ha Hstep; simpl; [exact Ha |].
  apply IH.
  - apply Hstep; [left | exact Ha].
  - intros b b' y Hy. apply Hstep. now right.
Qed.

(** ** The swap shuffle returns a permutation *)

Section SwapShuffle.

Context {G : Type} (rand : G → Q * G) (good : G → Prop).
Hypothesis rand_ok : outputs_in_unit_interval rand good.

Lemma random_index_range s i :
  good s → 0 <= i → 0 <= floor_mul (rand s).1 (i + 1) <= i.
Proof.
  intros Hs Hi. destruct (rand_ok s Hs) as [Hr _].
  pose proof (floor_mul_range _ (i + 1) Hr). lia.
Qed.

Lemma good_next s : good s → good (rand s).2.
Proof. intros Hs. now destruct (rand_ok s Hs). Qed.

Lemma AFB_x_AS_x_OPT_swap_state a s i :
  (AFB_x_AS_x_OPT_swap rand (a, s) i).2 = (rand s).2.
Proof. unfold AFB_x_AS_x_OPT_swap. now destruct (rand s). Qed.

Lemma AFB_x_AS_swap_state a s i :
  (AFB_x_AS_swap rand (a, s) i).2 = (rand s).2.
Proof. unfold AFB_x_AS_swap. now destruct (rand s). Qed.

Lemma AFB_x_AS_x_OPT_x_NO_INIT_swap_state a s i :
  (AFB_x_AS_x_OPT_x_NO_INIT_swap rand (a, s) i).2 = (rand s).2.
Proof. unfold AFB_x_AS_x_OPT_x_NO_INIT_swap. now destruct (rand s). Qed.

Lemma u32_set_insert a i v :
  0 <= i -> u32_set a i v = <[Z.to_nat i := from_option JS.ToUint32 0 v]> a.
Proof.
  intros Hi. unfold u32_set.
  destruct (Z.ltb_spec i 0); [lia | reflexivity].
Qed.

Lemma u32_get_lookup a i : 0 <= i -> u32_get a i = a !! Z.to_nat i.
Proof.
  intros Hi. unfold u32_get.
  destruct (Z.ltb_spec i 0); [lia | reflexivity].
Qed.

Lemma u32_set_word a i v : Forall is_u32 a → Forall is_u32 (u32_set a i v).
Proof.
  intros Ha. unfold u32_set. destruct (i <? 0); [exact Ha |].
  apply Forall_insert; [exact Ha |].
  destruct v as [z |]; simpl; [apply wrap_range | unfold is_u32; lia].
Qed.

Lemma ToUint32_word z : is_u32 z → JS.ToUint32 z = z.
Proof. apply wrap_small. Qed.

(** One iteration of the loop of [AFB_x_AS_x_OPT] rearranges the array. *)
Lemma AFB_x_AS_x_OPT_swap_perm a s i :
  good s → 1 <= i < Z.of_nat (length a) → Forall is_u32 a →
  (AFB_x_AS_x_OPT_swap rand (a, s) i).1 ≡ₚ a.
Proof.
  intros Hs Hi Hword. unfold AFB_x_AS_x_OPT_swap.
  pose proof (random_index_range s i Hs ltac:(lia)) as Hj.
  destruct (rand s) as [r s']. cbn [fst] in Hj. cbn [fst].
  generalize dependent (floor_mul r (i + 1)). intros j Hj.
  destruct (lookup_lt_is_Some_2 a (Z.to_nat i)) as [xi Hxi]; [lia |].
  destruct (lookup_lt_is_Some_2 a (Z.to_nat j)) as [xj Hxj]; [lia |].
  rewrite !u32_get_lookup, !u32_set_insert, Hxi, Hxj by lia. simpl.
  rewrite !ToUint32_word.
  - now apply insert_swap.
  - eapply Forall_lookup_1; eauto.
  - eapply Forall_lookup_1; eauto.
Qed.

(** The fill loop of [AFB_x_AS_x_OPT] writes [1 .. n], reduced to 32 bits. *)
Lemma AFB_x_AS_x_OPT_fill n :
  0 <= n →
  foldl (λ a i, u32_set a i (Some (i + 1))) (replicate (Z.to_nat n) 0) (upto n)
  = JS.ToUint32 <$> seqZ 1 n.
Proof.
  intros Hn. unfold upto.
  rewrite <- (Z2Nat.id n) at 2 3 by exact Hn.
  rewrite (fill_loop _ (λ i, JS.ToUint32 (i + 1)) 0).
  - rewrite Nat.sub_diag, app_nil_r.
    rewrite <- fill_successors, <- list_fmap_compose. reflexivity.
  - intros a i Hi. now rewrite u32_set_insert by lia.
  - lia.
Qed.

Lemma seqZ_words n : n < 2 ^ 32 → JS.ToUint32 <$> seqZ 1 n = seqZ 1 n.
Proof.
  intros Hn. rewrite <- (list_fmap_id (seqZ 1 n)) at 2.
  apply list_fmap_ext. intros k x Hx.
  apply lookup_seqZ in Hx. unfold id. apply ToUint32_word. unfold is_u32. lia.
Qed.

Lemma AFB_x_AS_x_OPT_permutation n s :
  good s → 0 <= n < 2 ^ 32 →
  ∃ buf s', AFB_x_AS_x_OPT rand n s = (Ok buf, s')
            ∧ length buf = Z.to_nat n ∧ buf ≡ₚ seqZ 1 n.
Proof.
  intros Hs Hn. unfold AFB_x_AS_x_OPT, new_Uint32Array.
  destruct (Z.ltb_spec n 0); [lia |].
  destruct (Z.ltb_spec (2 ^ 53 - 1) n); [lia |]. cbn [orb].
  rewrite AFB_x_AS_x_OPT_fill, seqZ_words by lia.
  pose proof (foldl_invariant (λ st : list Z * G, good st.2 ∧ st.1 ≡ₚ seqZ 1 n)
                (AFB_x_AS_x_OPT_swap rand) (downfrom n) (seqZ 1 n, s)) as Hloop.
  destruct (foldl (AFB_x_AS_x_OPT_swap rand) (seqZ 1 n, s) (downfrom n))
    as [buf s'].
  exists buf, s'. split; [reflexivity |].
  assert (Hperm : buf ≡ₚ seqZ 1 n).
  { apply Hloop; [now split |].
    intros [a t] i Hi [Ht Ha]. cbn [fst snd] in Ht, Ha.
    apply elem_of_downfrom in Hi. split.
    - rewrite AFB_x_AS_x_OPT_swap_state. now apply good_next.
    - etrans; [| exact Ha]. apply AFB_x_AS_x_OPT_swap_perm; [exact Ht | |].
      + rewrite Ha, length_seqZ. lia.
      + rewrite Ha. apply Forall_seqZ. unfold is_u32. lia. }
  split; [| exact Hperm].
  now rewrite Hperm, length_seqZ.
Qed.


(** Whatever the size and the random source, the buffer of
    [AFB_x_AS_x_OPT] holds 32-bit words only. *)
Lemma AFB_x_AS_x_OPT_words n s :
  0 <= n <= 2 ^ 53 - 1 →
  ∃ buf s', AFB_x_AS_x_OPT rand n s = (Ok buf, s') ∧ Forall is_u32 buf.
Proof.
  intros Hn. unfold AFB_x_AS_x_OPT, new_Uint32Array.
  destruct (Z.ltb_spec n 0); [lia |].
  destruct (Z.ltb_spec (2 ^ 53 - 1) n); [lia |]. cbn [orb].
  set (a0 := foldl _ _ (upto n)).
  assert (Ha0 : Forall is_u32 a0).
  { apply foldl_invariant.
    - apply Forall_replicate. unfold is_u32. lia.
    - intros a i _ Ha. now apply u32_set_word. }
  pose proof (foldl_invariant (λ st : list Z * G, Forall is_u32 st.1)
                (AFB_x_AS_x_OPT_swap rand) (downfrom n) (a0, s)) as Hloop.
  destruct (foldl (AFB_x_AS_x_OPT_swap rand) (a0, s) (downfrom n)) as [buf s'].
  exists buf, s'. split; [reflexivity |].
  apply Hloop; [exact Ha0 |].
  intros [a t] i _ Ha. cbn [fst] in Ha. unfold AFB_x_AS_x_OPT_swap.
  destruct (rand t) as [r t']. cbn [fst].
  now apply u32_set_word, u32_set_word.
Qed.

Lemma arr_get_lookup a i x :
  0 <= i → a !! Z.to_nat i = Some x → arr_get a i = x.
Proof.
  intros Hi Hx. unfold arr_get.
  destruct (Z.ltb_spec i 0); [lia |]. now rewrite Hx.
Qed.

Lemma arr_set_insert a i v :
  0 <= i < Z.of_nat (length a) → arr_set a i v = <[Z.to_nat i := v]> a.
Proof.
  intros Hi. unfold arr_set.
  destruct (Z.ltb_spec i 0); [lia |].
  destruct (Z.ltb_spec i (Z.of_nat (length a))); [reflexivity | lia].
Qed.

(** One iteration of the loop of [AFB_x_AS] rearranges the array. *)
Lemma AFB_x_AS_swap_perm a s i :
  good s → 1 <= i < Z.of_nat (length a) →
  (AFB_x_AS_swap rand (a, s) i).1 ≡ₚ a.
Proof.
  intros Hs Hi. unfold AFB_x_AS_swap.
  pose proof (random_index_range s i Hs ltac:(lia)) as Hj.
  destruct (rand s) as [r s']. cbn [fst] in Hj. cbn [fst].
  generalize dependent (floor_mul r (i + 1)). intros j Hj.
  destruct (lookup_lt_is_Some_2 a (Z.to_nat i)) as [xi Hxi]; [lia |].
  destruct (lookup_lt_is_Some_2 a (Z.to_nat j)) as [xj Hxj]; [lia |].
  rewrite (arr_get_lookup a i xi) by (assumption || lia).
  rewrite (arr_get_lookup a j xj) by (assumption || lia).
  rewrite (arr_set_insert a i) by lia.
  rewrite arr_set_insert by (rewrite length_insert; lia).
  now apply insert_swap.
Qed.

(** The fill loop of [AFB_x_AS] and [arrayFillB] writes [1 .. n]. *)
Lemma arrayFillB_loop n :
  0 <= n →
  foldl (λ a i, arr_set a i (VNum (i + 1))) (replicate (Z.to_nat n) VUndef) (upto n)
  = VNum <$> seqZ 1 n.
Proof.
  intros Hn. unfold upto.
  rewrite <- (Z2Nat.id n) at 2 3 by exact Hn.
  rewrite (fill_loop _ (λ i, VNum (i + 1)) VUndef).
  - rewrite Nat.sub_diag, app_nil_r.
    rewrite <- fill_successors, <- list_fmap_compose. reflexivity.
  - intros a i Hi. now rewrite arr_set_insert by lia.
  - lia.
Qed.

Lemma AFB_x_AS_permutation n s :
  good s → 0 <= n < 2 ^ 32 →
  ∃ buf s', AFB_x_AS rand n s = (Ok buf, s')
            ∧ length buf = Z.to_nat n ∧ buf ≡ₚ VNum <$> seqZ 1 n.
Proof.
  intros Hs Hn. unfold AFB_x_AS, Array_from_length.
  destruct (Z.ltb_spec (2 ^ 32 - 1) n); [lia |].
  rewrite arrayFillB_loop by lia.
  pose proof (foldl_invariant
                (λ st : list value * G, good st.2 ∧ st.1 ≡ₚ VNum <$> seqZ 1 n)
                (AFB_x_AS_swap rand) (downfrom n) (VNum <$> seqZ 1 n, s)) as Hloop.
  destruct (foldl (AFB_x_AS_swap rand) (VNum <$> seqZ 1 n, s) (downfrom n))
    as [buf s'].
  exists buf, s'. split; [reflexivity |].
  assert (Hperm : buf ≡ₚ VNum <$> seqZ 1 n).
  { apply Hloop; [now split |].
    intros [a t] i Hi [Ht Ha]. cbn [fst snd] in Ht, Ha.
    apply elem_of_downfrom in Hi. split.
    - rewrite AFB_x_AS_swap_state. now apply good_next.
    - etrans; [| exact Ha]. apply AFB_x_AS_swap_perm; [exact Ht |].
      rewrite Ha, length_fmap, length_seqZ. lia. }
  split; [| exact Hperm].
  now rewrite Hperm, length_fmap, length_seqZ.
Qed.


(** *** The variant without initialisation *)

Lemma materialize_lookup a k :
  materialize a !! k = (λ v, or_else (Some v) (Z.of_nat k + 1)) <$> a !! k.
Proof. unfold materialize. apply list_lookup_imap. Qed.

Lemma materialize_length a : length (materialize a) = length a.
Proof. unfold materialize. apply length_imap. Qed.

(** A fresh typed array stands for [1 .. n]. *)
Lemma materialize_zeroes n :
  0 <= n → materialize (replicate (Z.to_nat n) 0) = seqZ 1 n.
Proof.
  intros Hn. apply list_eq. intros k. rewrite materialize_lookup.
  destruct (decide (k < Z.to_nat n)%nat) as [Hk | Hk].
  - rewrite lookup_replicate_2, lookup_seqZ_lt by lia. simpl. f_equal. lia.
  - rewrite (proj1 (lookup_replicate_None _ _ _)), lookup_seqZ_ge by lia.
    reflexivity.
Qed.

(** Storing a non-zero value commutes with the reading of zeroes. *)
Lemma materialize_insert a k v :
  v ≠ 0 → materialize (<[k:=v]> a) = <[k:=v]> (materialize a).
Proof.
  intros Hv. apply list_eq. intros p.
  rewrite materialize_lookup, !list_lookup_insert, materialize_length.
  destruct (decide (k = p ∧ (k < length a)%nat)) as [[-> Hk] | Hne].
  - simpl. destruct (Z.eqb_spec v 0); [contradiction | reflexivity].
  - now rewrite materialize_lookup.
Qed.

(** What a read [a[k] || (k + 1)] of the lazy buffer returns. *)
Lemma or_else_materialize a k x :
  0 <= k → materialize a !! Z.to_nat k = Some x →
  or_else (u32_get a k) (k + 1) = x.
Proof.
  intros Hk. rewrite materialize_lookup, u32_get_lookup by exact Hk.
  destruct (a !! Z.to_nat k) as [v |]; simpl; [| discriminate].
  rewrite Z2Nat.id by exact Hk. congruence.
Qed.

(** One iteration of each loop, on a lazy buffer and on the array it
    stands for. *)
Lemma NO_INIT_swap_materialize n lazy eager s i :
  good s → 1 <= i < n → n < 2 ^ 32 →
  materialize lazy = eager → eager ≡ₚ seqZ 1 n →
  let st := AFB_x_AS_x_OPT_x_NO_INIT_swap rand (lazy, s) i in
  let st' := AFB_x_AS_x_OPT_swap rand (eager, s) i in
  st.2 = st'.2 ∧ materialize st.1 = st'.1.
Proof.
  intros Hs Hi Hn Hmat Hperm. cbv zeta.
  unfold AFB_x_AS_x_OPT_x_NO_INIT_swap, AFB_x_AS_x_OPT_swap.
  pose proof (random_index_range s i Hs ltac:(lia)) as Hj.
  destruct (rand s) as [r s']. cbn [fst snd] in *.
  generalize dependent (floor_mul r (i + 1)). intros j Hj.
  assert (Hlen : length eager = Z.to_nat n) by now rewrite Hperm, length_seqZ.
  destruct (lookup_lt_is_Some_2 eager (Z.to_nat i)) as [xi Hxi]; [lia |].
  destruct (lookup_lt_is_Some_2 eager (Z.to_nat j)) as [xj Hxj]; [lia |].
  assert (Hrange : ∀ k x, eager !! k = Some x → 1 <= x < 2 ^ 32).
  { intros k x Hx. apply list_elem_of_lookup_2 in Hx.
    rewrite Hperm in Hx. apply elem_of_seqZ in Hx. lia. }
  pose proof (Hrange _ _ Hxi) as Hri. pose proof (Hrange _ _ Hxj) as Hrj.
  split; [reflexivity |].
  rewrite <- Hmat in Hxi, Hxj.
  rewrite (or_else_materialize lazy i xi), (or_else_materialize lazy j xj)
    by (assumption || lia).
  rewrite Hmat in Hxi, Hxj.
  rewrite !u32_get_lookup, Hxi, Hxj, !u32_set_insert by lia. simpl.
  rewrite !ToUint32_word by (unfold is_u32; lia).
  rewrite !materialize_insert by lia. now rewrite Hmat.
Qed.

(** [AFB_x_AS_x_OPT_x_NO_INIT] returns the buffer of [AFB_x_AS_x_OPT] on
    the same draws, except that an index never written still holds 0 where
    the other holds the index plus one. *)
Lemma NO_INIT_materialized n s :
  good s → 0 <= n < 2 ^ 32 →
  ∃ lazy eager s',
    AFB_x_AS_x_OPT_x_NO_INIT rand n s = (Ok lazy, s')
    ∧ AFB_x_AS_x_OPT rand n s = (Ok eager, s')
    ∧ materialize lazy = eager.
Proof.
  intros Hgood Hn.
  unfold AFB_x_AS_x_OPT_x_NO_INIT, AFB_x_AS_x_OPT, new_Uint32Array.
  destruct (Z.ltb_spec n 0); [lia |].
  destruct (Z.ltb_spec (2 ^ 53 - 1) n); [lia |]. cbn [orb].
  rewrite AFB_x_AS_x_OPT_fill, seqZ_words by lia.
  pose proof (foldl_related
    (λ (st : list Z * G) (st' : list Z * G),
       good st.2 ∧ st.2 = st'.2 ∧ materialize st.1 = st'.1 ∧ st'.1 ≡ₚ seqZ 1 n)
    (AFB_x_AS_x_OPT_x_NO_INIT_swap rand) (AFB_x_AS_x_OPT_swap rand)
    (downfrom n) (replicate (Z.to_nat n) 0, s) (seqZ 1 n, s)) as Hloop.
  destruct (foldl (AFB_x_AS_x_OPT_x_NO_INIT_swap rand) _ (downfrom n))
    as [lazy s1].
  destruct (foldl (AFB_x_AS_x_OPT_swap rand) _ (downfrom n)) as [eager s2].
  cbn [fst snd] in Hloop.
  destruct Hloop as (_ & Hs & Hmat & _).
  - split; [exact Hgood |]. split; [reflexivity |]. split; [| reflexivity].
    apply materialize_zeroes. lia.
  - intros [a t] [a' t'] i Hi (Hg & Ht & Ha & Hperm). cbn [fst snd] in *.
    subst t'. apply elem_of_downfrom in Hi.
    destruct (NO_INIT_swap_materialize n a a' t i) as [H1 H2];
      [assumption | lia | lia | assumption | assumption |].
    split; [rewrite AFB_x_AS_x_OPT_x_NO_INIT_swap_state; now apply good_next |].
    split; [exact H1 |]. split; [exact H2 |].
    etrans; [| exact Hperm]. apply AFB_x_AS_x_OPT_swap_perm; [exact Hg | |].
    + rewrite Hperm, length_seqZ. lia.
    + rewrite Hperm. apply Forall_seqZ. unfold is_u32. lia.
  - subst s2. exists lazy, eager, s1. repeat split. exact Hmat.
Qed.

End SwapShuffle.

(** The generator of the program always returns a number in [[0,1)]. *)
Lemma mulberry32_ok : outputs_in_unit_interval mulberry32 (λ _, True).
Proof.
  intros seed _. split; [| exact I]. split; [| apply mulberry32_output_range].
  unfold mulberry32. cbv zeta. cbn [fst].
  apply word_fraction_is_double, ushr_range. lia.
Qed.

(** A script of numbers in [[0,1)] is replayed as such. *)
Lemma replay_ok : outputs_in_unit_interval replay (Forall unit_interval).
Proof.
  intros [| r l] Hl; simpl.
  - split; [| constructor]. unit_interval_by_computation.
  - inversion Hl; subst. now split.
Qed.

(** C1 (as amended): for every size [N] with [1 <= N < 2^32] and every
    random source whose outputs lie in [[0,1)], the buffer returned by
    [AFB_x_AS_x_OPT], and likewise by [AFB_x_AS], has length [N] and is a
    rearrangement of [1 .. N]: no value is repeated and the values are
    exactly those between 1 and [N]. *)
Theorem swap_shuffle_permutation {G : Type}
  (rand : G → Q * G) (good : G → Prop) (N : Z) (s : G) :
  outputs_in_unit_interval rand good → good s →
  1 <= N < 2 ^ 32 →
  (∃ buf s', AFB_x_AS_x_OPT rand N s = (Ok buf, s')
             ∧ length buf = Z.to_nat N ∧ buf ≡ₚ seqZ 1 N
             ∧ NoDup buf ∧ ∀ v, v ∈ buf ↔ 1 <= v <= N)
  ∧ (∃ buf s', AFB_x_AS rand N s = (Ok buf, s')
               ∧ length buf = Z.to_nat N ∧ buf ≡ₚ VNum <$> seqZ 1 N
               ∧ NoDup buf ∧ ∀ v, v ∈ buf ↔ ∃ z, v = VNum z ∧ 1 <= z <= N).
Proof.
  intros Hrand Hs HN. split.
  - destruct (AFB_x_AS_x_OPT_permutation rand good Hrand N s)
      as (buf & s' & Hrun & Hlen & Hperm); [exact Hs | lia |].
    exists buf, s'.
    split; [exact Hrun |]. split; [exact Hlen |]. split; [exact Hperm |].
    split.
    + rewrite Hperm. apply NoDup_seqZ.
    + intros v. rewrite Hperm, elem_of_seqZ. lia.
  - destruct (AFB_x_AS_permutation rand good Hrand N s)
      as (buf & s' & Hrun & Hlen & Hperm); [exact Hs | lia |].
    exists buf, s'.
    split; [exact Hrun |]. split; [exact Hlen |]. split; [exact Hperm |].
    split.
    + rewrite Hperm. apply NoDup_fmap_2; [| apply NoDup_seqZ].
      intros x y Hxy. now injection Hxy.
    + intros v. rewrite Hperm, list_elem_of_fmap.
      split; intros (z & -> & Hz); exists z; (split; [reflexivity |]).
      * apply elem_of_seqZ in Hz. lia.
      * apply elem_of_seqZ. lia.
Qed.

Lemma swap_shuffle_permutation_witness :
  ∃ buf seed', AFB_x_AS_x_OPT mulberry32 8 1750000000000 = (Ok buf, seed')
               ∧ buf ≡ₚ seqZ 1 8.
Proof.
  destruct (swap_shuffle_permutation mulberry32 (λ _, True) 8 1750000000000)
    as [(buf & s' & Hrun & _ & Hperm & _) _].
  - exact mulberry32_ok.
  - exact I.
  - lia.
  - exists buf, s'. split; [exact Hrun | exact Hperm].
Defined.

(** The program's own instance: the process-wide generator is
    [mulberry32], from any seed. *)
Corollary AFB_x_AS_x_OPT_mulberry32 (N seed : Z) :
  1 <= N < 2 ^ 32 →
  ∃ buf seed', AFB_x_AS_x_OPT mulberry32 N seed = (Ok buf, seed')
               ∧ length buf = Z.to_nat N ∧ buf ≡ₚ seqZ 1 N.
Proof.
  intros HN.
  apply (AFB_x_AS_x_OPT_permutation mulberry32 (λ _, True) mulberry32_ok);
    [exact I | lia].
Qed.

(** The same for an explicit sequence of draws in [[0,1)]. *)
Corollary AFB_x_AS_replay (N : Z) (draws : list Q) :
  Forall unit_interval draws → 1 <= N < 2 ^ 32 →
  ∃ buf rest, AFB_x_AS replay N draws = (Ok buf, rest)
              ∧ length buf = Z.to_nat N ∧ buf ≡ₚ VNum <$> seqZ 1 N.
Proof.
  intros Hdraws HN.
  apply (AFB_x_AS_permutation replay (Forall unit_interval) replay_ok);
    [exact Hdraws | lia].
Qed.

(** On the same draws, materialising the zeroes of the buffer of
    [AFB_x_AS_x_OPT_x_NO_INIT] gives the buffer of [AFB_x_AS_x_OPT]. *)
Corollary NO_INIT_mulberry32 (N seed : Z) :
  0 <= N < 2 ^ 32 →
  ∃ lazy eager seed',
    AFB_x_AS_x_OPT_x_NO_INIT mulberry32 N seed = (Ok lazy, seed')
    ∧ AFB_x_AS_x_OPT mulberry32 N seed = (Ok eager, seed')
    ∧ materialize lazy = eager.
Proof.
  intros HN.
  apply (NO_INIT_materialized mulberry32 (λ _, True) mulberry32_ok);
    [exact I | lia].
Qed.

(** C1 (as stated) fails at [N = 2^32]: the typed array stores the value
    [2^32] as 0, so the returned buffer does not contain [2^32]. *)
Lemma AFB_x_AS_x_OPT_wraps :
  ∃ buf seed', AFB_x_AS_x_OPT mulberry32 4294967296 0 = (Ok buf, seed')
               ∧ 4294967296 ∉ buf.
Proof.
  destruct (AFB_x_AS_x_OPT_words mulberry32 4294967296 0) as (buf & s' & Hrun & Hw);
    [lia |].
  exists buf, s'. split; [exact Hrun |].
  intros Hin. rewrite Forall_forall in Hw. apply Hw in Hin.
  unfold is_u32 in Hin. lia.
Qed.

(** The index is the floor of the rounded product.  The double
    0.3333333333333333 times 3 is the double 1, although the exact product
    is below 1; so with this draw [AFB_x_AS (3)] swaps index 2 with index 1
    and returns [[3, 1, 2]].  Likewise the output 4294785079 / 2^32 of
    [mulberry32] times 2097785 rounds up to the integer 2097696. *)
Lemma floor_mul_rounds_the_product :
  floor_mul (6004799503160661 # 18014398509481984) 3 = 1
  ∧ Qfloor ((6004799503160661 # 18014398509481984) * 3) = 0
  ∧ AFB_x_AS replay 3 [(6004799503160661 # 18014398509481984)%Q; 0%Q]
    = (Ok [VNum 3; VNum 1; VNum 2], [])
  ∧ floor_mul (4294785079 # 4294967296) 2097785 = 2097696
  ∧ Qfloor ((4294785079 # 4294967296) * 2097785) = 2097695.
Proof. repeat split; vm_compute; reflexivity. Qed.

(** ** Determinism *)










(** ** The bucket distribution: the first loop *)

Section Bucket.

Context {R : Type} (rand : R → Q * R) (good : R → Prop).
Hypothesis rand_ok : outputs_in_unit_interval rand good.

Lemma BucketRadixShuffle_put_state m s i :
  (BucketRadixShuffle_put rand (m, s) i).2 = (rand s).2.
Proof. unfold BucketRadixShuffle_put. now destruct (rand s). Qed.

(** Replacing a slot by one that holds one more value adds that value to
    the memory. *)
Lemma memory_contents_insert m r v v' x :
  m !! r = Some v → slot_contents v' = slot_contents v ++ [x] →
  memory_contents (<[r:=v']> m) ≡ₚ x :: memory_contents m.
Proof.
  intros Hr Hv'. unfold memory_contents.
  assert (Hlt : (r < length m)%nat) by (eapply lookup_lt_Some; eauto).
  rewrite insert_take_drop by exact Hlt.
  rewrite <- (take_drop_middle m r v Hr) at 3.
  rewrite !bind_app, !bind_cons, Hv'.
  rewrite <- !app_assoc. simpl.
  rewrite (Permutation_middle (take r m ≫= slot_contents)).
  rewrite (Permutation_middle (slot_contents v)). reflexivity.
Qed.

Lemma slot_contents_number z : z ≠ 0 → slot_contents (VNum z) = [z].
Proof.
  intros Hz. simpl. destruct (Z.eqb_spec z 0); [contradiction | reflexivity].
Qed.

(** One iteration of the first loop: some slot receives the value
    [i + 1] after the values it already holds. *)
Lemma BucketRadixShuffle_put_slot m s i :
  good s → (0 < length m)%nat → 0 <= i →
  ∃ r v v', m !! r = Some v
            ∧ (BucketRadixShuffle_put rand (m, s) i).1 = <[r:=v']> m
            ∧ slot_contents v' = slot_contents v ++ [i + 1].
Proof.
  intros Hs Hm Hi. unfold BucketRadixShuffle_put.
  destruct (rand_ok s Hs) as [Hx _].
  pose proof (floor_mul_range _ (Z.of_nat (length m)) Hx ltac:(lia)) as Hr.
  destruct (rand s) as [x s']. cbn [fst] in *.
  generalize dependent (floor_mul x (Z.of_nat (length m))). intros r Hr.
  destruct (lookup_lt_is_Some_2 m (Z.to_nat r)) as [v Hv]; [lia |].
  rewrite (arr_get_lookup m r v) by (assumption || lia).
  exists (Z.to_nat r), v.
  destruct v as [| z | l].
  - exists (VNum (i + 1)). rewrite arr_set_insert by lia.
    split; [exact Hv |]. split; [reflexivity |].
    rewrite slot_contents_number by lia. reflexivity.
  - destruct (Z.eqb_spec z 0) as [-> | Hz].
    + exists (VNum (i + 1)). rewrite arr_set_insert by lia.
      split; [exact Hv |]. split; [reflexivity |].
      rewrite slot_contents_number by lia. reflexivity.
    + exists (VArr [z; i + 1]). rewrite arr_set_insert by lia.
      split; [exact Hv |]. split; [reflexivity |].
      rewrite slot_contents_number by exact Hz. reflexivity.
  - exists (VArr (l ++ [i + 1])). rewrite arr_set_insert by lia.
    split; [exact Hv |]. split; reflexivity.
Qed.

(** Appending a value larger than all others keeps a list ascending. *)
Lemma ascending_snoc l x :
  ascending l → Forall (λ y, y < x) l → ascending (l ++ [x]).
Proof.
  intros Hl Hx p q a b Hpq Ha Hb.
  assert (Hp : (p < length l)%nat).
  { apply lookup_lt_Some in Hb. rewrite length_app in Hb. simpl in Hb. lia. }
  rewrite lookup_app_l in Ha by exact Hp.
  destruct (decide (q < length l)%nat) as [Hq | Hq].
  - rewrite lookup_app_l in Hb by exact Hq. exact (Hl p q a b Hpq Ha Hb).
  - rewrite lookup_app_r in Hb by lia.
    destruct (q - length l)%nat; simpl in Hb; [| discriminate].
    injection Hb as <-. exact (Forall_lookup_1 _ _ _ _ Hx Ha).
Qed.

Lemma BucketRadixShuffle_put_distributed m0 m s (k : nat) :
  good s → (0 < length m0)%nat → distributed m0 (Z.of_nat k) m →
  distributed m0 (Z.of_nat (S k))
    (BucketRadixShuffle_put rand (m, s) (Z.of_nat k)).1.
Proof.
  intros Hs Hm0 (Hlen & Hcont & Hslots).
  destruct (BucketRadixShuffle_put_slot m s (Z.of_nat k))
    as (r & v & v' & Hv & -> & Hv'); [exact Hs | lia | lia |].
  replace (Z.of_nat k + 1) with (Z.of_nat (S k)) in Hv' by lia.
  split; [now rewrite length_insert |]. split.
  - rewrite (memory_contents_insert m r v v' _ Hv Hv'), Hcont.
    rewrite seqZ_S, app_assoc, <- Permutation_cons_append.
    replace (1 + Z.of_nat k) with (Z.of_nat (S k)) by lia. reflexivity.
  - apply Forall_insert.
    + eapply Forall_impl; [exact Hslots |].
      intros w [Hasc Hle]. split; [exact Hasc |].
      eapply Forall_impl; [exact Hle |]. intros y Hy. simpl in Hy. lia.
    + rewrite Hv'. destruct (Forall_lookup_1 _ _ _ _ Hslots Hv) as [Hasc Hle].
      split.
      * apply ascending_snoc; [exact Hasc |].
        eapply Forall_impl; [exact Hle |]. intros y Hy. simpl in Hy. lia.
      * apply Forall_app. split.
        -- eapply Forall_impl; [exact Hle |]. intros y Hy. simpl in Hy. lia.
        -- apply Forall_singleton. lia.
Qed.

Lemma BucketRadixShuffle_put_loop m0 s (k : nat) :
  good s → (0 < length m0)%nat → distributed m0 0 m0 →
  let st := foldl (BucketRadixShuffle_put rand) (m0, s) (upto (Z.of_nat k)) in
  good st.2 ∧ distributed m0 (Z.of_nat k) st.1.
Proof.
  intros Hs Hm0 Hstart. cbv zeta. unfold upto. induction k as [| k IH].
  - now split.
  - rewrite seqZ_S, foldl_snoc. simpl.
    destruct (foldl (BucketRadixShuffle_put rand) (m0, s) (seqZ 0 (Z.of_nat k)))
      as [m t]. cbn [fst snd] in IH. destruct IH as [Ht Hm]. split.
    + rewrite BucketRadixShuffle_put_state. now destruct (rand_ok t Ht).
    + now apply BucketRadixShuffle_put_distributed.
Qed.

Lemma zeroed_memory_empty m :
  Forall (λ v, v = VNum 0) m → memory_contents m = [] ∧ distributed m 0 m.
Proof.
  intros Hm.
  assert (Hempty : memory_contents m = []).
  { unfold memory_contents. induction Hm as [| v m -> _ IH]; [reflexivity |].
    rewrite bind_cons, IH. reflexivity. }
  split; [exact Hempty |]. split; [reflexivity |]. split.
  - now rewrite Hempty.
  - eapply Forall_impl; [exact Hm |]. intros v ->. simpl. split.
    + intros p q x y _ Hx. destruct p; discriminate Hx.
    + constructor.
Qed.

(** On zeroed memory with at least one slot, the first loop of
    [BucketRadixShuffle] leaves the values [1 .. n] in the memory, each
    once, and every slot in ascending order: of two values in one slot, the
    smaller comes first. *)
Lemma BucketRadixShuffle_distributes m n s :
  good s → (0 < length m)%nat → Forall (λ v, v = VNum 0) m → 0 <= n →
  let m' := (BucketRadixShuffle rand m n s).1.2 in
  length m' = length m
  ∧ memory_contents m' ≡ₚ seqZ 1 n
  ∧ Forall (λ v, ascending (slot_contents v)) m'.
Proof.
  intros Hgood Hlen Hzero Hn. cbv zeta. unfold BucketRadixShuffle.
  destruct (zeroed_memory_empty m Hzero) as [Hempty Hstart].
  pose proof (BucketRadixShuffle_put_loop m s (Z.to_nat n) Hgood Hlen Hstart)
    as Hloop.
  cbv zeta in Hloop. rewrite Z2Nat.id in Hloop by exact Hn.
  destruct (foldl (BucketRadixShuffle_put rand) (m, s) (upto n)) as [m' s'].
  cbn [fst snd] in *. destruct Hloop as (_ & Hl & Hc & Hs).
  split; [exact Hl |]. split.
  - now rewrite Hc, Hempty.
  - eapply Forall_impl; [exact Hs |]. now intros v [Hasc _].
Qed.

End Bucket.

Lemma arrayFillZero_zeroes n :
  0 <= n < 2 ^ 32 → arrayFillZero n = Ok (replicate (Z.to_nat n) (VNum 0)).
Proof.
  intros Hn. unfold arrayFillZero, Array_from_length, upto.
  destruct (Z.ltb_spec (2 ^ 32 - 1) n); [lia |]. f_equal.
  rewrite <- (Z2Nat.id n) at 2 by lia.
  rewrite (fill_loop _ (λ _, VNum 0) VUndef).
  - rewrite Nat.sub_diag, app_nil_r.
    rewrite (const_fmap _ _ (VNum 0)) by reflexivity.
    now rewrite length_seqZ, Nat2Z.id.
  - intros a i Hi. now rewrite arr_set_insert by lia.
  - lia.
Qed.

(** The first half of the bucket distribution, on memory built by
    [arrayFillZero] with [k] slots per value and draws in [[0,1)]: after
    the call the memory holds each of [1 .. N] once, and every slot is in
    ascending order. *)
Corollary BucketRadixShuffle_memory (k N : Z) (draws : list Q) :
  1 <= k → 1 <= N → k * N < 2 ^ 32 → Forall unit_interval draws →
  ∃ m, arrayFillZero (k * N) = Ok m
       ∧ let m' := (BucketRadixShuffle replay m N draws).1.2 in
         length m' = Z.to_nat (k * N)
         ∧ memory_contents m' ≡ₚ seqZ 1 N
         ∧ Forall (λ v, ascending (slot_contents v)) m'.
Proof.
  intros Hk HN HM Hdraws.
  exists (replicate (Z.to_nat (k * N)) (VNum 0)).
  split; [apply arrayFillZero_zeroes; nia |].
  pose proof (BucketRadixShuffle_distributes replay (Forall unit_interval)
                replay_ok (replicate (Z.to_nat (k * N)) (VNum 0)) N draws Hdraws)
    as H.
  rewrite length_replicate in H. apply H.
  - nia.
  - apply Forall_replicate. reflexivity.
  - lia.
Qed.

(** ** The fill builders *)

Lemma arrayFillA_indices n :
  n < 2 ^ 32 → arrayFillA n = Ok (VNum <$> seqZ 0 n).
Proof.
  intros Hn. unfold arrayFillA, Array_from_length_map.
  destruct (Z.ltb_spec (2 ^ 32 - 1) n); [lia | reflexivity].
Qed.

Lemma arrayFillB_ascending n :
  0 <= n < 2 ^ 32 → arrayFillB n = Ok (VNum <$> seqZ 1 n).
Proof.
  intros Hn. unfold arrayFillB, Array_from_length.
  destruct (Z.ltb_spec (2 ^ 32 - 1) n); [lia |].
  now rewrite arrayFillB_loop by lia.
Qed.

(** The two builders never agree on a non-empty array: the first element
    of [arrayFillA] is 0, that of [arrayFillB] is 1. *)
Lemma arrayFill_differ n :
  1 <= n < 2 ^ 32 → arrayFillA n ≠ arrayFillB n.
Proof.
  intros Hn. rewrite arrayFillA_indices, arrayFillB_ascending by lia.
  rewrite !(seqZ_cons _ n) by lia. simpl. intros H. discriminate H.
Qed.

(** C6: what the code does at [N = 3].  [arrayFillB] returns [[1, 2, 3]];
    [arrayFillA], documented to return [[1, ..., n]], returns [[0, 1, 2]]:
    its mapping function is [(_, i) => i]. *)
Theorem arrayFillA_starts_at_zero :
  arrayFillA 3 = Ok [VNum 0; VNum 1; VNum 2]
  ∧ arrayFillB 3 = Ok [VNum 1; VNum 2; VNum 3].
Proof. split; reflexivity. Qed.

(** ** Size one, and the variant without initialisation *)

(** C7: what the code does at [N = 1].  No draw is made and no swap is
    performed by either function; [AFB_x_AS_x_OPT] returns [[1]], while
    [AFB_x_AS_x_OPT_x_NO_INIT] returns the buffer as allocated, [[0]]. *)
Theorem size_one_buffers {G : Type} (rand : G → Q * G) (s : G) :
  AFB_x_AS_x_OPT rand 1 s = (Ok [1], s)
  ∧ AFB_x_AS rand 1 s = (Ok [VNum 1], s)
  ∧ AFB_x_AS_x_OPT_x_NO_INIT rand 1 s = (Ok [0], s).
Proof. repeat split; reflexivity. Qed.

(** C9: what the code does on identical draws.  At [N = 2], when the draw
    selects [j = 1], [AFB_x_AS_x_OPT] returns [[1, 2]] and
    [AFB_x_AS_x_OPT_x_NO_INIT] returns [[0, 2]]: index 0 is never written,
    so its value is never materialised.  The same happens with the
    program's generator, for instance at [N = 5] from the seed
    1750000000002. *)
Theorem NO_INIT_leaves_zero :
  AFB_x_AS_x_OPT replay 2 [(3 # 4)%Q] = (Ok [1; 2], [])
  ∧ AFB_x_AS_x_OPT_x_NO_INIT replay 2 [(3 # 4)%Q] = (Ok [0; 2], [])
  ∧ fst (AFB_x_AS_x_OPT mulberry32 5 1750000000002) = Ok [1; 4; 5; 3; 2]
  ∧ fst (AFB_x_AS_x_OPT_x_NO_INIT mulberry32 5 1750000000002) = Ok [0; 4; 5; 3; 2].
Proof. repeat split; vm_compute; reflexivity. Qed.

(** ** The bucket distribution, evaluated *)

(** C2: what the code does on zeroed memory.  With [N = 2] and two slots,
    both values drawn into slot 0: the memory holds the bucket [[1, 2]],
    and the scan, which tests [m[1]] where it should test [m[i]], appends
    the bucket itself, so the returned array has one element that is not a
    number.  With [N = 3] and three slots, 1 and 2 drawn into slot 1 and 3
    into slot 0: [m[1]] is a bucket, the scan treats the number in slot 0 as
    a bucket and emits nothing for it, so 3 is missing. *)
Theorem BucketRadixShuffle_scan_reads_slot_one :
  arrayFillZero 2 = Ok [VNum 0; VNum 0]
  ∧ BucketRadixShuffle replay [VNum 0; VNum 0] 2 [(1 # 10)%Q; (2 # 10)%Q]
    = ([VArr [1; 2]], [VArr [1; 2]; VNum 0], [])
  ∧ arrayFillZero 3 = Ok [VNum 0; VNum 0; VNum 0]
  ∧ BucketRadixShuffle replay [VNum 0; VNum 0; VNum 0] 3
      [(4 # 10)%Q; (5 # 10)%Q; (1 # 10)%Q]
    = ([VNum 1; VNum 2], [VNum 3; VArr [1; 2]; VNum 0], []).
Proof. repeat split; vm_compute; reflexivity. Qed.

(** C8: what the code does when 1 and 2 collide.  With [N = 2] and four
    zeroed slots, both values drawn into slot 0: the returned array is
    [[[1, 2]]]; neither 1 nor 2 is an element of it, so neither precedes
    the other in the returned array. *)
Theorem BucketRadixShuffle_collision_not_flattened :
  arrayFillZero 4 = Ok [VNum 0; VNum 0; VNum 0; VNum 0]
  ∧ (∃ a m s,
       BucketRadixShuffle replay [VNum 0; VNum 0; VNum 0; VNum 0] 2
         [(1 # 10)%Q; (2 # 10)%Q] = (a, m, s)
       ∧ m !! 0%nat = Some (VArr [1; 2])
       ∧ a = [VArr [1; 2]]
       ∧ (VNum 1 ∉ a) ∧ (VNum 2 ∉ a)).
Proof.
  split; [reflexivity |].
  eexists _, _, _. split; [vm_compute; reflexivity |].
  split; [reflexivity |]. split; [reflexivity |].
  split; intros H; apply list_elem_of_singleton in H; discriminate H.
Qed.

(** ** The command-line program rejects invalid sizes *)

Lemma accepted_is_positive_integer n :
  negb (Number_isInteger n) || number_lt n 1 = false →
  ∃ q, n = Finite q ∧ 1 <= Qfloor q ∧ (q == inject_Z (Qfloor q))%Q.
Proof.
  intros H. apply orb_false_elim in H as [Hint Hlt].
  apply negb_false_iff in Hint.
  destruct n as [| neg | q]; simpl in Hint; try discriminate Hint.
  exists q. split; [reflexivity |].
  simpl in Hlt. apply negb_false_iff, Qle_bool_iff in Hlt.
  apply Z.eqb_eq in Hint. split.
  - rewrite <- (Qfloor_Z 1). now apply Qfloor_resp_le.
  - destruct q as [a d]. unfold Qeq. simpl in *.
    pose proof (Z.div_mod a (Z.pos d) ltac:(lia)) as Hdiv. lia.
Qed.

Lemma rejected_or_positive Number arg seed :
  arg ≠ ""%string →
  main Number (Some arg) seed =
    [console_error "n must be a positive integer (> 0)."; process_exit 1]
  ∨ is_positive_integer (Number arg).
Proof.
  intros Harg. unfold main.
  destruct arg as [| c arg]; [congruence |].
  destruct (negb (Number_isInteger (Number (String c arg)))
            || number_lt (Number (String c arg)) 1) eqn:Hcheck;
    [left; reflexivity | right].
  destruct (accepted_is_positive_integer _ Hcheck) as (q & -> & Hpos & Hint).
  exists (Qfloor q). split; assumption.
Qed.

(** C3 (as amended): the check of the size is made by [main], not by the
    strategy.  When the size given to the program is not a positive integer
    (zero, negative, fractional, infinite or not a number), [main] reports
    it and exits with status 1 without calling [AFB_x_AS_x_OPT], so no
    buffer is allocated: with a non-empty argument the events are exactly
    the message [n must be a positive integer (> 0).] and the exit. *)
Theorem main_rejects_invalid_size
  (Number : string → number) (argv2 : option string) (seed : Z) :
  (∀ arg, argv2 = Some arg → ¬ is_positive_integer (Number arg)) →
  (∃ msg, main Number argv2 seed = [console_error msg; process_exit 1])
  ∧ (∀ arg, argv2 = Some arg → arg ≠ ""%string →
       main Number argv2 seed =
         [console_error "n must be a positive integer (> 0)."; process_exit 1])
  ∧ (∀ k, call_AFB_x_AS_x_OPT k ∉ main Number argv2 seed).
Proof.
  intros Hbad.
  assert (Hmain : ∀ arg, argv2 = Some arg → arg ≠ ""%string →
            main Number argv2 seed =
              [console_error "n must be a positive integer (> 0)."; process_exit 1]).
  { intros arg -> Harg.
    destruct (rejected_or_positive Number arg seed Harg) as [H | H];
      [exact H | now destruct (Hbad arg eq_refl)]. }
  assert (Hexit : ∃ msg, main Number argv2 seed = [console_error msg; process_exit 1]).
  { destruct argv2 as [arg |]; [| eexists; reflexivity].
    destruct (decide (arg = ""%string)) as [-> | Harg]; [eexists; reflexivity |].
    eexists. now apply (Hmain arg). }
  split; [exact Hexit |]. split; [exact Hmain |].
  intros k Hk. destruct Hexit as [msg Hmsg]. rewrite Hmsg in Hk.
  apply elem_of_cons in Hk as [Hk | Hk]; [discriminate Hk |].
  apply list_elem_of_singleton in Hk. discriminate Hk.
Qed.

Lemma main_rejects_invalid_size_witness :
  main (λ _, Finite (7 # 2)) (Some "3.5"%string) 0 =
    [console_error "n must be a positive integer (> 0)."; process_exit 1].
Proof.
  refine (proj1 (proj2 (main_rejects_invalid_size
            (λ _, Finite (7 # 2)) (Some "3.5"%string) 0 _)) "3.5"%string eq_refl _).
  - intros arg _ (k & Hk & Heq). unfold Qeq in Heq. simpl in Heq. lia.
  - discriminate.
Defined.

(** The size is not coerced: a call of the strategy is made with the
    integer that the argument denotes, which is at least 1. *)
Lemma main_passes_size_unchanged Number argv2 seed k :
  call_AFB_x_AS_x_OPT k ∈ main Number argv2 seed →
  ∃ arg q, argv2 = Some arg ∧ Number arg = Finite q
           ∧ (q == inject_Z k)%Q ∧ 1 <= k.
Proof.
  unfold main. intros Hk.
  destruct argv2 as [[| c arg] |].
  - apply elem_of_cons in Hk as [Hk | Hk]; [discriminate Hk |].
    apply list_elem_of_singleton in Hk. discriminate Hk.
  - destruct (negb (Number_isInteger (Number (String c arg)))
              || number_lt (Number (String c arg)) 1) eqn:Hcheck.
    + apply elem_of_cons in Hk as [Hk | Hk]; [discriminate Hk |].
      apply list_elem_of_singleton in Hk. discriminate Hk.
    + destruct (accepted_is_positive_integer _ Hcheck) as (q & Hq & Hpos & Hint).
      rewrite Hq in Hk.
      assert (Hkq : k = Qfloor q).
      { apply elem_of_cons in Hk as [Hk | Hk]; [now injection Hk |].
        exfalso.
        destruct (AFB_x_AS_x_OPT mulberry32 (Qfloor q) seed).1 as [a |].
        - apply elem_of_app in Hk as [Hk | Hk].
          + clear - Hk. generalize dependent 0%nat. induction a as [| x a IH]; intros i Hk.
            * inversion Hk.
            * simpl in Hk. apply elem_of_app in Hk as [Hk | Hk].
              -- destruct (0 <? i)%nat; [| inversion Hk].
                 apply list_elem_of_singleton in Hk. discriminate Hk.
              -- apply elem_of_cons in Hk as [Hk | Hk]; [discriminate Hk |].
                 now apply IH in Hk.
          + apply list_elem_of_singleton in Hk. discriminate Hk.
        - apply list_elem_of_singleton in Hk. discriminate Hk. }
      subst k. exists (String c arg), q. repeat split; assumption.
  - apply elem_of_cons in Hk as [Hk | Hk]; [discriminate Hk |].
    apply list_elem_of_singleton in Hk. discriminate Hk.
Qed.

(** C3 (as stated) fails for the strategy itself, which does not check its
    size: at 0 it allocates and returns an empty buffer, and at -5 it is the
    allocation that throws. *)
Lemma AFB_x_AS_x_OPT_does_not_validate :
  AFB_x_AS_x_OPT mulberry32 0 1750000000000 = (Ok [], 1750000000000)
  ∧ new_Uint32Array (-5) = RangeError
  ∧ AFB_x_AS_x_OPT mulberry32 (-5) 1750000000000 = (RangeError, 1750000000000).
Proof. repeat split; reflexivity. Qed.

(** ** The benchmark harness *)

Section Measure.

Context {T : Type} (toLocaleString : number → option nat → option nat → string).


(** A thunk that throws ends the measurement: nothing is reported. *)
Lemma measure_propagates_throw (args : MeasureArgs T) (w w' : World T) :
  f args (performance_now w).2 = (Threw, w') →
  measure toLocaleString args w = (Threw, w').
Proof.
  intros Hf. unfold measure. cbn [performance_now snd] in *.
  now rewrite Hf.
Qed.

End Measure.



(** * Further properties *)

(** ** The generators *)

(** Whatever the seed, also past [2^53], a call of [mulberry32] returns a
    32-bit integer divided by [2^32]: a double, never 1, never a negative
    number. *)
Theorem mulberry32_always_in_unit_interval (seed : Z) :
  ∃ u, is_u32 u ∧ (mulberry32 seed).1 = u # 4294967296
       ∧ unit_interval (mulberry32 seed).1.
Proof.
  eexists. split; [| split; [unfold mulberry32; cbv zeta; reflexivity |]].
  - apply ushr_range. lia.
  - exact (proj1 (mulberry32_ok seed I)).
Qed.

(** Seeds that differ by a multiple of [2^32] give the same outputs, as
    long as both stay exact. *)
Theorem mulberry32_seed_modulo (seed1 seed2 : Z) (k : nat) :
  - 2 ^ 53 < seed1 → seed1 + Z.of_nat k * 0x6D2B79F5 < 2 ^ 53 →
  - 2 ^ 53 < seed2 → seed2 + Z.of_nat k * 0x6D2B79F5 < 2 ^ 53 →
  seed1 mod 2 ^ 32 = seed2 mod 2 ^ 32 →
  (mulberry32_draws k seed1).1 = (mulberry32_draws k seed2).1.
Proof.
  intros Hlo1 Hhi1 Hlo2 Hhi2 Hmod.
  destruct (mulberry32_draws_exact k seed1 Hlo1 Hhi1) as [-> _].
  destruct (mulberry32_draws_exact k seed2 Hlo2 Hhi2) as [-> _].
  cbn [fst]. unfold U32.wrap. now rewrite Hmod.
Qed.

Lemma mulberry32_seed_modulo_witness :
  (mulberry32_draws 3 7).1 = (mulberry32_draws 3 (7 + 5 * 4294967296)).1.
Proof.
  apply (mulberry32_seed_modulo 7 (7 + 5 * 4294967296) 3); try lia.
  reflexivity.
Defined.

Lemma wrap_shl a k :
  0 <= k < 32 → U32.wrap (JS_shl a k) = U32.wrap (Z.shiftl (U32.wrap a) k).
Proof.
  intros Hk. unfold JS_shl, JS.ToUint32.
  rewrite (Z.mod_small k (2 ^ 32)), (Z.mod_small k 32) by lia.
  rewrite wrap_ToInt32, !Z.shiftl_mul_pow2 by lia.
  rewrite <- (wrap_mul (JS.ToInt32 a)), wrap_ToInt32, wrap_mul.
  rewrite <- (wrap_mul (U32.wrap a)), wrap_wrap, wrap_mul. reflexivity.
Qed.

(** The signed operators of the source compute the unsigned 32-bit
    formula: a call returns [xorshift128_word] of [_x] and [_w], stores it
    in [_w], and moves the old [_y], [_z], [_w] to [_x], [_y], [_z]. *)
Lemma xorshift128_rand_unsigned (st : xorshift128_state) :
  xorshift128_rand st =
    (xorshift128_word (_x st) (_w st),
     {| _w := xorshift128_word (_x st) (_w st);
        _x := _y st; _y := _z st; _z := _w st |}).
Proof.
  assert (Hw : JS.ushr
      (JS.bxor (JS.bxor (JS.bxor (_w st)
         (JS.ushr (JS.bxor (_x st) (JS_shl (_x st) 11)) 8))
         (JS.ushr (_w st) 19))
         (JS_shl (JS.bxor (_x st) (JS_shl (_x st) 11)) 13)) 0
      = xorshift128_word (_x st) (_w st)).
  { unfold xorshift128_word. cbv zeta.
    rewrite (ushr_wrap _ 0), Z.shiftr_0_r by lia.
    rewrite !wrap_bxor, wrap_shl by lia.
    rewrite !ushr_wrap, !shiftr_u32 by lia.
    rewrite wrap_bxor, wrap_shl by lia. reflexivity. }
  unfold xorshift128_rand. cbv zeta. now rewrite Hw.
Qed.

Lemma xorshift128_word_u32 x w : is_u32 (xorshift128_word x w).
Proof.
  pose proof (xorshift128_rand_unsigned
                {| _w := w; _x := x; _y := 0; _z := 0 |}) as H.
  apply (f_equal fst) in H. cbn [fst _x _w] in H. rewrite <- H.
  unfold xorshift128_rand. cbv zeta. cbn [fst]. apply ushr_range. lia.
Qed.

(** From the initial values, after any number of calls, the four variables
    of the generator are unsigned 32-bit words; so is every number it
    returns, which is the new [_w]. *)
Theorem xorshift128_state_words (n : Z) :
  let st := randomXORshift128 n xorshift128_init in
  is_u32 (_w st) ∧ is_u32 (_x st) ∧ is_u32 (_y st) ∧ is_u32 (_z st)
  ∧ is_u32 (xorshift128_rand st).1
  ∧ (xorshift128_rand st).1 = _w (xorshift128_rand st).2.
Proof.
  cbv zeta.
  assert (Hinv : let st := randomXORshift128 n xorshift128_init in
            is_u32 (_w st) ∧ is_u32 (_x st) ∧ is_u32 (_y st) ∧ is_u32 (_z st)).
  { unfold randomXORshift128.
    apply (foldl_invariant (λ st, is_u32 (_w st) ∧ is_u32 (_x st)
                                 ∧ is_u32 (_y st) ∧ is_u32 (_z st))).
    - unfold is_u32. simpl. lia.
    - intros st i _ (Hw & Hx & Hy & Hz).
      rewrite xorshift128_rand_unsigned. cbn [snd _w _x _y _z].
      repeat split; solve [apply xorshift128_word_u32 | apply Hy | apply Hz | apply Hw]. }
  cbv zeta in Hinv. destruct Hinv as (Hw & Hx & Hy & Hz).
  repeat split; try solve [apply Hw | apply Hx | apply Hy | apply Hz].
  - rewrite xorshift128_rand_unsigned. apply xorshift128_word_u32.
  - rewrite xorshift128_rand_unsigned. apply xorshift128_word_u32.
Qed.

(** A call forgets part of [_x]: flipping the bits [0x600801] of [_x]
    changes neither the returned number nor the new variables, so two
    different states have the same successor. *)
Theorem xorshift128_rand_forgets_bits (st : xorshift128_state) :
  xorshift128_rand
    {| _w := _w st; _x := Z.lxor (_x st) 0x600801; _y := _y st; _z := _z st |}
  = xorshift128_rand st.
Proof.
  rewrite !xorshift128_rand_unsigned. cbn [_w _x _y _z].
  assert (H : xorshift128_word (Z.lxor (_x st) 0x600801) (_w st)
              = xorshift128_word (_x st) (_w st)); [| now rewrite H].
  unfold xorshift128_word. cbv zeta.
  set (x := U32.wrap (_x st)). set (w := U32.wrap (_w st)).
  assert (Ht : Z.lxor (U32.wrap (Z.lxor (_x st) 0x600801))
                 (U32.wrap (Z.shiftl (U32.wrap (Z.lxor (_x st) 0x600801)) 11))
               = Z.lxor (Z.lxor x (U32.wrap (Z.shiftl x 11))) 0x200001).
  { rewrite wrap_lxor. fold x. change (U32.wrap 0x600801) with 0x600801.
    rewrite Z.shiftl_lxor, wrap_lxor.
    change (U32.wrap (Z.shiftl 0x600801 11)) with 0x400800.
    replace 0x200001 with (Z.lxor 0x600801 0x400800) by reflexivity.
    generalize (U32.wrap (Z.shiftl x 11)). intros y. xor_bits. }
  rewrite Ht. set (t := Z.lxor x (U32.wrap (Z.shiftl x 11))).
  rewrite Z.shiftr_lxor, Z.shiftl_lxor, wrap_lxor.
  change (Z.shiftr 0x200001 8) with 8192.
  change (U32.wrap (Z.shiftl 0x200001 13)) with 8192.
  generalize (Z.shiftr t 8) (U32.wrap (Z.shiftl t 13)) (Z.shiftr w 19).
  intros a b c. xor_bits.
Qed.

(** ** How many numbers a strategy draws *)

Lemma foldl_ignore_index {A B} (g : A → A) (l : list B) : ∀ a,
  foldl (λ a _, g a) a l = Nat.iter (length l) g a.
Proof.
  induction l as [| x l IH]; intros a; [reflexivity |].
  cbn [foldl length]. now rewrite IH, Nat.iter_succ_r.
Qed.

Lemma foldl_state_only {A B G} (next : G → G) (f : A * G → B → A * G)
  (l : list B) :
  (∀ a s i, (f (a, s) i).2 = next s) →
  ∀ a s, (foldl f (a, s) l).2 = Nat.iter (length l) next s.
Proof.
  intros Hf. induction l as [| x l IH]; intros a s; [reflexivity |].
  cbn [foldl length]. destruct (f (a, s) x) as [a' s'] eqn:Hstep.
  rewrite IH, Nat.iter_succ_r. f_equal.
  now rewrite <- (Hf a s x), Hstep.
Qed.

Lemma length_downfrom n : length (downfrom n) = Z.to_nat (n - 1).
Proof. unfold downfrom. now rewrite length_reverse, length_seqZ. Qed.

Lemma length_upto n : length (upto n) = Z.to_nat n.
Proof. unfold upto. apply length_seqZ. Qed.

Lemma random_draws_iter {G : Type} (rand : G → Q * G) (n : Z) (s : G) :
  randomMulberry32 rand n s = Nat.iter (Z.to_nat n) (λ s, (rand s).2) s.
Proof.
  unfold randomMulberry32.
  now rewrite (foldl_ignore_index (λ s, (rand s).2)), length_upto.
Qed.

(** The state in which [AFB_x_AS_x_OPT] leaves the random source. *)
Lemma AFB_x_AS_x_OPT_state {G : Type} (rand : G → Q * G) (N : Z) (s : G) :
  0 <= N <= 2 ^ 32 - 1 →
  (AFB_x_AS_x_OPT rand N s).2 = randomMulberry32 rand (N - 1) s.
Proof.
  intros HN. rewrite random_draws_iter.
  unfold AFB_x_AS_x_OPT, new_Uint32Array.
  destruct (Z.ltb_spec N 0); [lia |].
  destruct (Z.ltb_spec (2 ^ 53 - 1) N); [lia |]. cbn [orb].
  match goal with |- context [foldl (AFB_x_AS_x_OPT_swap rand) (?a, s) _] =>
    pose proof (foldl_state_only (λ s, (rand s).2) (AFB_x_AS_x_OPT_swap rand)
                  (downfrom N) (AFB_x_AS_x_OPT_swap_state rand) a s) as Hst;
    destruct (foldl (AFB_x_AS_x_OPT_swap rand) (a, s) (downfrom N)) end.
  cbn [snd] in *. now rewrite Hst, length_downfrom.
Qed.

(** A swap shuffle of size [N] draws [N - 1] numbers, none for sizes up to
    1: it leaves the random source in the state in which [N - 1] discarded
    draws ([randomMulberry32 (N - 1)], [randomMath (N - 1)]) leave it. *)
Theorem swap_shuffle_draws {G : Type} (rand : G → Q * G) (N : Z) (s : G) :
  0 <= N <= 2 ^ 32 - 1 →
  (AFB_x_AS_x_OPT rand N s).2 = randomMulberry32 rand (N - 1) s
  ∧ (AFB_x_AS_x_OPT_x_NO_INIT rand N s).2 = randomMulberry32 rand (N - 1) s
  ∧ (AFB_x_AS rand N s).2 = randomMath rand (N - 1) s.
Proof.
  intros HN. split; [now apply AFB_x_AS_x_OPT_state |].
  unfold randomMath. fold (randomMulberry32 rand (N - 1) s).
  rewrite random_draws_iter.
  unfold AFB_x_AS_x_OPT_x_NO_INIT, AFB_x_AS, new_Uint32Array, Array_from_length.
  destruct (Z.ltb_spec N 0); [lia |].
  destruct (Z.ltb_spec (2 ^ 53 - 1) N); [lia |].
  destruct (Z.ltb_spec (2 ^ 32 - 1) N); [lia |]. cbn [orb].
  split.
  - match goal with
    |- context [foldl (AFB_x_AS_x_OPT_x_NO_INIT_swap rand) (?a, s) _] =>
      pose proof (foldl_state_only (λ s, (rand s).2)
                    (AFB_x_AS_x_OPT_x_NO_INIT_swap rand)
                    (downfrom N) (AFB_x_AS_x_OPT_x_NO_INIT_swap_state rand) a s) as Hst;
      destruct (foldl (AFB_x_AS_x_OPT_x_NO_INIT_swap rand) (a, s) (downfrom N)) end.
    cbn [snd] in *. now rewrite Hst, length_downfrom.
  - match goal with |- context [foldl (AFB_x_AS_swap rand) (?a, s) _] =>
      pose proof (foldl_state_only (λ s, (rand s).2) (AFB_x_AS_swap rand)
                    (downfrom N) (AFB_x_AS_swap_state rand) a s) as Hst;
      destruct (foldl (AFB_x_AS_swap rand) (a, s) (downfrom N)) end.
    cbn [snd] in *. now rewrite Hst, length_downfrom.
Qed.

Lemma swap_shuffle_draws_witness :
  (AFB_x_AS_x_OPT mulberry32 8 20250610).2 = randomMulberry32 mulberry32 7 20250610.
Proof.
  exact (proj1 (swap_shuffle_draws mulberry32 8 20250610 ltac:(lia))).
Defined.

Lemma mulberry32_next_seed seed :
  Z.abs (seed + 0x6D2B79F5) < 2 ^ 53 → (mulberry32 seed).2 = seed + 0x6D2B79F5.
Proof. intros H. destruct (mulberry32_exact seed H) as [-> _]. reflexivity. Qed.

Lemma mulberry32_iter_seed (k : nat) : ∀ seed,
  - 2 ^ 53 < seed → seed + Z.of_nat k * 0x6D2B79F5 < 2 ^ 53 →
  Nat.iter k (λ s, (mulberry32 s).2) seed = seed + Z.of_nat k * 0x6D2B79F5.
Proof.
  induction k as [| k IH]; intros seed Hlo Hhi.
  - simpl. lia.
  - rewrite Nat.iter_succ_r, mulberry32_next_seed by lia.
    rewrite IH by lia. lia.
Qed.

(** While the seed stays exact, [n] calls of the generator add
    [n * 0x6D2B79F5] to it: this is what [randomMulberry32 (n)] does to the
    process-wide generator, and a shuffle of size [N] adds
    [(N - 1) * 0x6D2B79F5]. *)
Theorem mulberry32_seed_advance (n N seed : Z) :
  - 2 ^ 53 < seed →
  0 <= n → seed + n * 0x6D2B79F5 < 2 ^ 53 →
  1 <= N <= 2 ^ 32 - 1 → seed + (N - 1) * 0x6D2B79F5 < 2 ^ 53 →
  randomMulberry32 mulberry32 n seed = seed + n * 0x6D2B79F5
  ∧ (AFB_x_AS_x_OPT mulberry32 N seed).2 = seed + (N - 1) * 0x6D2B79F5.
Proof.
  intros Hlo Hn Hhi HN HhiN.
  assert (Hadv : ∀ m, 0 <= m → seed + m * 0x6D2B79F5 < 2 ^ 53 →
            randomMulberry32 mulberry32 m seed = seed + m * 0x6D2B79F5).
  { intros m Hm Hm'. unfold randomMulberry32.
    rewrite (foldl_ignore_index (λ s, (mulberry32 s).2)), length_upto.
    rewrite mulberry32_iter_seed; rewrite ?Z2Nat.id; lia. }
  split; [now apply Hadv |].
  rewrite AFB_x_AS_x_OPT_state by lia.
  apply Hadv; lia.
Qed.

Lemma mulberry32_seed_advance_witness :
  randomMulberry32 mulberry32 1000 1750000000000 = 1750000000000 + 1000 * 0x6D2B79F5
  ∧ (AFB_x_AS_x_OPT mulberry32 8 1750000000000).2 = 1750000000000 + 7 * 0x6D2B79F5.
Proof.
  apply (mulberry32_seed_advance 1000 8 1750000000000); lia.
Defined.

(** ** Sorting *)

Lemma sort_insert_perm {A} (cmp : A → A → Q) x l :
  sort_insert cmp x l ≡ₚ x :: l.
Proof.
  induction l as [| y l IH]; simpl; [reflexivity |].
  destruct (Qle_bool (cmp x y) 0); [reflexivity |].
  rewrite IH. apply perm_swap.
Qed.

Lemma Array_sort_perm {A} (cmp : A → A → Q) l : Array_sort cmp l ≡ₚ l.
Proof.
  unfold Array_sort. induction l as [| x l IH]; simpl; [reflexivity |].
  now rewrite sort_insert_perm, IH.
Qed.

Lemma sort_insert_sorted {A} (cmp : A → A → Q) (R : relation A)
  `{!Transitive R} x l :
  StronglySorted R l → Forall (sorts_by cmp R x) l →
  StronglySorted R (sort_insert cmp x l).
Proof.
  intros Hl Hx. induction Hl as [| y l Hl IH Hy]; simpl.
  - repeat constructor.
  - inversion Hx as [| ? ? [Hle Hgt] Hx']; subst.
    destruct (Qle_bool (cmp x y) 0) eqn:Hc.
    + constructor; [now constructor |].
      constructor; [now apply Hle |].
      eapply Forall_impl; [exact Hy |]. intros z Hz.
      now transitivity y; [apply Hle |].
    + constructor; [now apply IH |].
      rewrite sort_insert_perm. constructor; [now apply Hgt | exact Hy].
Qed.

(** Sorting puts in order every array whose comparator agrees with the
    order on the pairs of elements as they stand in the array. *)
Lemma Array_sort_sorted {A} (cmp : A → A → Q) (R : relation A)
  `{!Transitive R} l :
  StronglySorted (sorts_by cmp R) l → StronglySorted R (Array_sort cmp l).
Proof.
  induction 1 as [| x l Hl IH Hx]; [constructor |].
  change (StronglySorted R (sort_insert cmp x (Array_sort cmp l))).
  apply sort_insert_sorted; [exact _ | exact IH |].
  now rewrite Array_sort_perm.
Qed.

Lemma numeric_sign x y : Qle_bool (numeric x y) 0 = true ↔ x <= y.
Proof.
  unfold numeric, JS.sub. rewrite Qle_bool_iff.
  change 0%Q with (inject_Z 0). rewrite <- Zle_Qle, round53_sign. lia.
Qed.

Lemma numeric_sorts x y : sorts_by numeric Z.le x y.
Proof.
  unfold sorts_by. split; intros H.
  - now apply numeric_sign.
  - destruct (Z.le_gt_cases y x) as [Hle | Hgt]; [exact Hle |].
    assert (Hq : Qle_bool (numeric x y) 0 = true) by (apply numeric_sign; lia).
    congruence.
Qed.

Lemma StronglySorted_universal {A} (R : relation A) l :
  (∀ x y, R x y) → StronglySorted R l.
Proof.
  intros HR. induction l as [| x l IH]; constructor; [exact IH |].
  apply Forall_forall. intros y _. apply HR.
Qed.

(** [arraySort] returns its numbers in ascending order, each as many times
    as it occurs in the array. *)
Theorem arraySort_sorted_permutation (a : list Z) :
  StronglySorted Z.le (arraySort a) ∧ arraySort a ≡ₚ a
  ∧ length (arraySort a) = length a.
Proof.
  unfold arraySort. split; [| split].
  - apply Array_sort_sorted; [exact _ |].
    apply StronglySorted_universal, numeric_sorts.
  - apply Array_sort_perm.
  - now rewrite Array_sort_perm.
Qed.

Lemma seqZ_sorted m n : StronglySorted Z.le (seqZ m n).
Proof.
  destruct (Z.le_gt_cases n 0) as [Hn | Hn].
  - rewrite seqZ_nil by lia. constructor.
  - rewrite <- (Z2Nat.id n) by lia. generalize (Z.to_nat n). clear.
    intros k. revert m. induction k as [| k IH]; intros m.
    + constructor.
    + rewrite seqZ_cons by lia.
      replace (Z.pred (Z.of_nat (S k))) with (Z.of_nat k) by lia.
      constructor; [apply IH |].
      apply Forall_seqZ. lia.
Qed.

(** Sorting a rearrangement of [m, m + 1, ...] gives back that sequence. *)
Lemma sort_rearranged_seqZ l m n :
  l ≡ₚ seqZ m n → Array_sort numeric l = seqZ m n.
Proof.
  intros Hl. apply (StronglySorted_unique Z.le).
  - apply Array_sort_sorted; [exact _ |].
    apply StronglySorted_universal, numeric_sorts.
  - apply seqZ_sorted.
  - now rewrite Array_sort_perm.
Qed.

(** ** [arrayShuffle] *)

Lemma Permutation_numbers buf l0 :
  buf ≡ₚ VNum <$> l0 → ∃ l, buf = VNum <$> l ∧ l ≡ₚ l0.
Proof.
  intros Hbuf.
  set (num := λ v, match v with VNum z => z | _ => 0 end).
  exists (num <$> buf). split.
  - rewrite <- list_fmap_compose.
    rewrite <- (list_fmap_id buf) at 1. apply list_fmap_ext.
    intros i v Hv. apply list_elem_of_lookup_2 in Hv.
    rewrite Hbuf in Hv. apply list_elem_of_fmap in Hv as (z & -> & _).
    reflexivity.
  - rewrite Hbuf, <- list_fmap_compose. now rewrite list_fmap_id.
Qed.

Section ArrayShuffle.

Context {G : Type} (rand : G → Q * G) (good : G → Prop).
Hypothesis rand_ok : outputs_in_unit_interval rand good.

Lemma arrayShuffle_permutation_aux a s :
  good s →
  good (arrayShuffle rand a s).2 ∧ (arrayShuffle rand a s).1 ≡ₚ a.
Proof.
  intros Hs. unfold arrayShuffle.
  apply (foldl_invariant (λ st : list value * G, good st.2 ∧ st.1 ≡ₚ a));
    [now split |].
  intros [b t] i Hi [Ht Hb]. cbn [fst snd] in Ht, Hb.
  apply elem_of_downfrom in Hi.
  change (arrayShuffle_swap rand) with (AFB_x_AS_swap rand). split.
  - rewrite AFB_x_AS_swap_state. now apply (good_next rand good rand_ok).
  - etrans; [| exact Hb].
    apply (AFB_x_AS_swap_perm rand good rand_ok); [exact Ht |].
    rewrite Hb. lia.
Qed.

End ArrayShuffle.

(** [arrayShuffle] rearranges the array it is given, whatever it holds:
    the result has the same elements as many times each, and the same
    length.  An array of fewer than two elements is returned as it is and
    no number is drawn. *)
Theorem arrayShuffle_permutation {G : Type}
  (rand : G → Q * G) (good : G → Prop) (a : list value) (s : G) :
  outputs_in_unit_interval rand good → good s →
  (arrayShuffle rand a s).1 ≡ₚ a
  ∧ length (arrayShuffle rand a s).1 = length a
  ∧ ((length a ≤ 1)%nat → arrayShuffle rand a s = (a, s)).
Proof.
  intros Hrand Hs.
  destruct (arrayShuffle_permutation_aux rand good Hrand a s Hs) as [_ Hperm].
  split; [exact Hperm |]. split; [now rewrite Hperm |].
  intros Hlen. unfold arrayShuffle, downfrom.
  now rewrite seqZ_nil by lia.
Qed.

Lemma arrayShuffle_permutation_witness :
  (arrayShuffle mulberry32 [VNum 7; VUndef; VArr [1; 2]; VNum 7] 20250610).1
  ≡ₚ [VNum 7; VUndef; VArr [1; 2]; VNum 7].
Proof.
  exact (proj1 (arrayShuffle_permutation mulberry32 (λ _, True)
                  [VNum 7; VUndef; VArr [1; 2]; VNum 7] 20250610 mulberry32_ok I)).
Defined.

Lemma arrayFillB_length n a :
  arrayFillB n = Ok a → downfrom (Z.of_nat (length a)) = downfrom n.
Proof.
  unfold arrayFillB, Array_from_length.
  destruct (Z.ltb_spec (2 ^ 32 - 1) n); [discriminate |].
  intros [= <-]. destruct (Z.le_gt_cases 0 n) as [Hn | Hn].
  - rewrite arrayFillB_loop, length_fmap, length_seqZ, Z2Nat.id by lia.
    reflexivity.
  - unfold upto, downfrom. rewrite (seqZ_nil 0 n) by lia.
    replace (Z.to_nat n) with 0%nat by lia. simpl.
    now rewrite !seqZ_nil by lia.
Qed.

(** [AFB_x_AS] is [arrayFillB] followed by [arrayShuffle], as its
    documentation says: for every size and every random source the two
    give the same array and leave the source in the same state, and both
    fail when the array cannot be allocated. *)
Theorem AFB_x_AS_is_fill_then_shuffle {G : Type}
  (rand : G → Q * G) (n : Z) (s : G) :
  AFB_x_AS rand n s =
    match arrayFillB n with
    | Ok a => let '(b, s') := arrayShuffle rand a s in (Ok b, s')
    | RangeError => (RangeError, s)
    end.
Proof.
  destruct (arrayFillB n) as [a |] eqn:Hfill.
  - pose proof (arrayFillB_length n a Hfill) as Hlen.
    unfold arrayShuffle. rewrite Hlen.
    change (arrayShuffle_swap rand) with (AFB_x_AS_swap rand).
    unfold AFB_x_AS. unfold arrayFillB in Hfill.
    destruct (Array_from_length n) as [a0 |]; [| discriminate].
    injection Hfill as <-. reflexivity.
  - unfold AFB_x_AS. unfold arrayFillB in Hfill.
    destruct (Array_from_length n) as [a0 |]; [discriminate | reflexivity].
Qed.

(** Sorting undoes shuffling: [arraySort] applied to the numbers of
    [arrayShuffle (arrayFillB (n) ())] returns [1 .. n] in order. *)
Theorem arraySort_undoes_arrayShuffle {G : Type}
  (rand : G → Q * G) (good : G → Prop) (n : Z) (s : G) :
  outputs_in_unit_interval rand good → good s → 0 <= n < 2 ^ 32 →
  ∃ a l s', arrayFillB n = Ok a
            ∧ arrayShuffle rand a s = (VNum <$> l, s')
            ∧ arraySort l = seqZ 1 n.
Proof.
  intros Hrand Hs Hn.
  exists (VNum <$> seqZ 1 n).
  destruct (arrayShuffle_permutation_aux rand good Hrand (VNum <$> seqZ 1 n) s Hs)
    as [_ Hperm].
  destruct (Permutation_numbers _ _ Hperm) as (l & Hbuf & Hl).
  exists l, (arrayShuffle rand (VNum <$> seqZ 1 n) s).2.
  split; [now apply arrayFillB_ascending |]. split.
  - rewrite <- Hbuf. now destruct (arrayShuffle rand (VNum <$> seqZ 1 n) s).
  - now apply sort_rearranged_seqZ.
Qed.

Lemma arraySort_undoes_arrayShuffle_witness :
  ∃ a l s', arrayFillB 6 = Ok a
            ∧ arrayShuffle mulberry32 a 20250610 = (VNum <$> l, s')
            ∧ arraySort l = seqZ 1 6.
Proof.
  apply (arraySort_undoes_arrayShuffle mulberry32 (λ _, True) 6 20250610);
    [exact mulberry32_ok | exact I | lia].
Defined.

(** ** The test of the repository passes *)

(** The test of [util.test.ts] passes for every state of the generator:
    at the size [1000 * 1000 * 10] neither length assertion fails, and the
    sorted shuffled array equals the reference array element by element. *)
Theorem test_passes (seed : Z) : test seed = all_tests_ok.
Proof.
  unfold test. set (n := 1000 * 1000 * 10).
  assert (Hn : 0 <= n < 2 ^ 32) by (unfold n; lia). clearbody n.
  unfold test_of.
  rewrite arrayFillB_ascending by lia.
  destruct (AFB_x_AS_x_OPT_permutation mulberry32 (λ _, True) mulberry32_ok n seed)
    as (b & s' & Hrun & Hlen & Hperm); [exact I | lia |].
  rewrite Hrun. cbn [fst].
  rewrite length_fmap, length_seqZ, Hlen, Z2Nat.id, Z.eqb_refl by lia.
  cbn [negb]. rewrite (sort_rearranged_seqZ b 1 n Hperm).
  assert (Hall : forallb
            (λ i, strict_equal (arr_get (VNum <$> seqZ 1 n) i) (u32_get (seqZ 1 n) i))
            (upto n) = true).
  { apply forallb_forall. intros i Hi.
    apply list_elem_of_In, elem_of_upto in Hi.
    rewrite (arr_get_lookup _ i (VNum (1 + i))), u32_get_lookup by
      (try lia; rewrite list_lookup_fmap, lookup_seqZ_lt by lia;
       simpl; f_equal; f_equal; lia).
    rewrite lookup_seqZ_lt by lia. rewrite Z2Nat.id by lia.
    simpl. apply Z.eqb_refl. }
  now rewrite Hall.
Qed.

(** ** Arrays filled with draws, and the sort by random key *)

Lemma array_set_insert {A} (hole : A) a i v :
  0 <= i < Z.of_nat (length a) → array_set hole a i v = <[Z.to_nat i := v]> a.
Proof.
  intros Hi. unfold array_set.
  destruct (Z.ltb_spec i 0); [lia |].
  destruct (Z.ltb_spec i (Z.of_nat (length a))); [reflexivity | lia].
Qed.

Lemma draws_S {G} (rand : G → Q * G) (k : nat) (s : G) :
  draws rand (S k) s =
    ((rand s).1 :: (draws rand k (rand s).2).1, (draws rand k (rand s).2).2).
Proof.
  cbn [draws]. destruct (rand s) as [r s1]. cbn [fst snd].
  now destruct (draws rand k s1).
Qed.

Lemma draws_snoc {G} (rand : G → Q * G) (k : nat) : ∀ s,
  draws rand (S k) s =
    ((draws rand k s).1 ++ [(rand (draws rand k s).2).1],
     (rand (draws rand k s).2).2).
Proof.
  induction k as [| k IH]; intros s.
  - rewrite draws_S. reflexivity.
  - rewrite draws_S, (IH (rand s).2), (draws_S rand k s). reflexivity.
Qed.

Lemma length_draws {G} (rand : G → Q * G) (k : nat) : ∀ s,
  length (draws rand k s).1 = k.
Proof.
  induction k as [| k IH]; intros s; [reflexivity |].
  simpl. destruct (rand s) as [r s1]. specialize (IH s1).
  destruct (draws rand k s1). simpl in *. now rewrite IH.
Qed.

(** A loop that stores at every index below [k] a value made of the index
    and a fresh draw. *)
Lemma fill_with_draws {A G} (rand : G → Q * G) (mk : Z → Q → A) (hole : A)
  (N k : nat) (s : G) :
  (k ≤ N)%nat →
  foldl (λ '(a, s) i, let '(r, s) := rand s in (array_set hole a i (mk i r), s))
        (replicate N hole, s) (seqZ 0 (Z.of_nat k))
  = (zip_with mk (seqZ 0 (Z.of_nat k)) (draws rand k s).1 ++ replicate (N - k) hole,
     (draws rand k s).2).
Proof.
  induction k as [| k IH]; intros Hk.
  - simpl. now rewrite Nat.sub_0_r.
  - rewrite seqZ_S, foldl_snoc, IH, draws_snoc by lia. cbn [fst snd].
    destruct (rand (draws rand k s).2) as [r s']. cbn [fst snd]. f_equal.
    pose proof (length_draws rand k s) as Hlen.
    rewrite array_set_insert.
    2:{ rewrite length_app, length_zip_with, length_seqZ, length_replicate. lia. }
    rewrite zip_with_app by (rewrite length_seqZ; lia).
    replace (Z.to_nat (0 + Z.of_nat k)) with
      (length (zip_with mk (seqZ 0 (Z.of_nat k)) (draws rand k s).1) + 0)%nat
      by (rewrite length_zip_with, length_seqZ; lia).
    rewrite insert_app_r.
    replace (N - k)%nat with (S (N - S k)) by lia.
    simpl. now rewrite <- app_assoc.
Qed.

Lemma fill_all_with_draws {A G} (rand : G → Q * G) (mk : Z → Q → A) (hole : A)
  (n : Z) (s : G) :
  0 <= n →
  foldl (λ '(a, s) i, let '(r, s) := rand s in (array_set hole a i (mk i r), s))
        (replicate (Z.to_nat n) hole, s) (upto n)
  = (zip_with mk (seqZ 0 n) (draws rand (Z.to_nat n) s).1,
     (draws rand (Z.to_nat n) s).2).
Proof.
  intros Hn.
  pose proof (fill_with_draws rand mk hole (Z.to_nat n) (Z.to_nat n) s
                (Nat.le_refl _)) as H.
  rewrite Z2Nat.id, Nat.sub_diag, app_nil_r in H by lia. exact H.
Qed.

Lemma zip_with_compose {A B C D} (g : C → D) (f : A → B → C) l k :
  zip_with (λ x y, g (f x y)) l k = g <$> zip_with f l k.
Proof.
  revert k. induction l as [| x l IH]; intros [| y k]; simpl; try reflexivity.
  now rewrite IH.
Qed.

Lemma zip_with_right {A B} (l : list A) : ∀ k : list B,
  (length k ≤ length l)%nat → zip_with (λ _ y, y) l k = k.
Proof.
  induction l as [| x l IH]; intros [| y k] Hlen; simpl in *;
    try reflexivity; try lia.
  rewrite IH by lia. reflexivity.
Qed.

Lemma zip_with_left {A B C} (g : A → C) (l : list A) : ∀ k : list B,
  (length l ≤ length k)%nat → zip_with (λ x _, g x) l k = g <$> l.
Proof.
  induction l as [| x l IH]; intros [| y k] Hlen; simpl in *;
    try reflexivity; try lia.
  rewrite IH by lia. reflexivity.
Qed.

(** [arrayFillRandom (n)] returns the next [n] draws in the order drawn,
    and [arrayFillIndexRandom (n)] pairs the [i]-th of them with [i + 1];
    both leave the random source after [n] draws. *)
Theorem fills_hold_the_draws {G : Type} (rand : G → Q * G) (n : Z) (s : G) :
  0 <= n <= 2 ^ 32 - 1 →
  let ds := (draws rand (Z.to_nat n) s).1 in
  let s' := (draws rand (Z.to_nat n) s).2 in
  length ds = Z.to_nat n
  ∧ arrayFillRandom rand n s = (Ok (Some <$> ds), s')
  ∧ arrayFillIndexRandom rand n s
    = (Ok (Some <$> zip_with (λ i r, (i + 1, r)) (seqZ 0 n) ds), s').
Proof.
  intros Hn. cbv zeta. split; [apply length_draws |].
  unfold arrayFillRandom, arrayFillIndexRandom, Array_of_length, upto.
  destruct (Z.ltb_spec (2 ^ 32 - 1) n); [lia |].
  split.
  - rewrite (fill_all_with_draws rand (λ _ r, Some r) None) by lia.
    f_equal. f_equal.
    rewrite (zip_with_compose Some (λ _ r, r)). f_equal.
    apply zip_with_right. rewrite length_draws, length_seqZ. lia.
  - rewrite (fill_all_with_draws rand (λ i r, Some (i + 1, r)) None) by lia.
    f_equal. f_equal.
    apply (zip_with_compose Some (λ i r, (i + 1, r))).
Qed.

Lemma fills_hold_the_draws_witness :
  arrayFillRandom replay 2 [(3 # 4)%Q; (1 # 4)%Q; (1 # 2)%Q]
  = (Ok [Some (3 # 4)%Q; Some (1 # 4)%Q], [(1 # 2)%Q]).
Proof.
  exact (proj1 (proj2 (fills_hold_the_draws replay 2
                         [(3 # 4)%Q; (1 # 4)%Q; (1 # 2)%Q] ltac:(lia)))).
Defined.

Lemma key_then_index_transitive : Transitive key_then_index.
Proof.
  intros p q r [Hpq | [Hpq Hpq']] [Hqr | [Hqr Hqr']]; unfold key_then_index.
  - left. lra.
  - left. lra.
  - left. lra.
  - right. split; [lra | lia].
Qed.

(** The pairs as the fill loop leaves them: in the order of their indices,
    their keys being the draws. *)
Lemma keyed_pairs_by_index ds : ∀ m n,
  Forall unit_interval ds →
  StronglySorted (λ p q : Q * Z,
                    unit_interval p.1 ∧ unit_interval q.1 ∧ p.2 < q.2)
    (zip_with (λ i r, (r, i + 1)) (seqZ m n) ds).
Proof.
  induction ds as [| d ds IH]; intros m n Hds.
  - destruct (seqZ m n); constructor.
  - destruct (Z.le_gt_cases n 0) as [Hn | Hn].
    + rewrite seqZ_nil by lia. constructor.
    + apply Forall_cons_1 in Hds as [Hd Hds].
      rewrite seqZ_cons by lia. simpl. constructor; [now apply IH |].
      apply Forall_forall. intros [r j] Hin. simpl.
      apply elem_of_lookup_zip_with in Hin as (k & i & r' & [= -> ->] & Hi & Hr).
      apply lookup_seqZ in Hi.
      split; [exact Hd |]. split; [| lia].
      exact (Forall_lookup_1 _ _ _ _ Hds Hr).
Qed.

Lemma key_comparator_sorts (p q : Q * Z) :
  unit_interval p.1 → unit_interval q.1 → p.2 < q.2 →
  sorts_by (λ _a _b, JS.diff _a.1 _b.1) key_then_index p q.
Proof.
  intros (Hdp & Hp0 & _) (Hdq & Hq0 & _) Hidx.
  unfold sorts_by, key_then_index. split; intros H.
  - apply (diff_sign _ _ Hdp Hdq Hp0 Hq0) in H.
    destruct (Qlt_le_dec p.1 q.1) as [Hlt | Hge]; [now left |].
    right. split; [lra | exact Hidx].
  - left. destruct (Qlt_le_dec q.1 p.1) as [Hlt | Hge]; [exact Hlt |].
    assert (Hq : Qle_bool (JS.diff p.1 q.1) 0 = true)
      by (apply (diff_sign _ _ Hdp Hdq Hp0 Hq0); lra).
    congruence.
Qed.

(** The draws of a random source with outputs in [[0,1)]. *)
Lemma draws_in_unit_interval {G} (rand : G → Q * G) (good : G → Prop) (k : nat) :
  outputs_in_unit_interval rand good →
  ∀ s, good s → Forall unit_interval (draws rand k s).1.
Proof.
  intros Hrand. induction k as [| k IH]; intros s Hs; [constructor |].
  rewrite draws_S. cbn [fst]. destruct (Hrand s Hs) as [Hr Hnext].
  constructor; [exact Hr | now apply IH].
Qed.

Lemma StronglySorted_weaken {A} (R R' : relation A) l :
  (∀ x y, R x y → R' x y) → StronglySorted R l → StronglySorted R' l.
Proof.
  intros HR. induction 1 as [| x l Hl IH Hx]; constructor; [exact IH |].
  eapply Forall_impl; [exact Hx | auto].
Qed.

Lemma omap_defined {A} (l : list A) : omap id (Some <$> l) = l.
Proof.
  induction l as [| x l IH]; [reflexivity |].
  change (x :: omap id (Some <$> l) = x :: l). now rewrite IH.
Qed.

Lemma filter_holes_defined {A} (l : list A) :
  filter (λ x, x = None) (Some <$> l) = [].
Proof.
  induction l as [| x l IH]; [reflexivity |].
  rewrite fmap_cons, filter_cons_False by discriminate. exact IH.
Qed.

(** With draws in [[0,1)], [AFIR_x_SORT (n)] returns the [n] pairs of a
    draw and an index: the pair of the [i]-th draw and [i + 1] for every
    [i], arranged by ascending draw, and by ascending index among equal
    draws.  Its indices are a rearrangement of [1 .. n]. *)
Theorem AFIR_x_SORT_sorted_by_key {G : Type}
  (rand : G → Q * G) (good : G → Prop) (n : Z) (s : G) :
  outputs_in_unit_interval rand good → good s →
  0 <= n <= 2 ^ 32 - 1 →
  ∃ pairs,
    AFIR_x_SORT rand n s = (Ok (Some <$> pairs), (draws rand (Z.to_nat n) s).2)
    ∧ pairs ≡ₚ zip_with (λ i r, (r, i + 1)) (seqZ 0 n) (draws rand (Z.to_nat n) s).1
    ∧ StronglySorted key_then_index pairs
    ∧ pairs.*2 ≡ₚ seqZ 1 n
    ∧ length pairs = Z.to_nat n.
Proof.
  intros Hrand Hgood Hn.
  set (ds := (draws rand (Z.to_nat n) s).1).
  set (P := zip_with (λ i r, (r, i + 1)) (seqZ 0 n) ds).
  assert (Hlen : length ds = Z.to_nat n) by apply length_draws.
  assert (Hds : Forall unit_interval ds)
    by now apply (draws_in_unit_interval rand good).
  exists (Array_sort (λ _a _b, JS.diff _a.1 _b.1) P).
  assert (Hsnd : P.*2 = seqZ 1 n).
  { unfold P. rewrite <- (zip_with_compose snd (λ i r, (r, i + 1))). simpl.
    rewrite (zip_with_left (λ i, i + 1)) by (rewrite length_seqZ; lia).
    change (seqZ 1 n) with (seqZ (1 + 0) n). rewrite <- fmap_add_seqZ.
    apply list_fmap_ext. intros _ i _. lia. }
  split; [| split; [apply Array_sort_perm | split; [| split]]].
  - unfold AFIR_x_SORT, Array_of_length, upto.
    destruct (Z.ltb_spec (2 ^ 32 - 1) n); [lia |].
    rewrite (fill_all_with_draws rand (λ i r, Some (r, i + 1)) None) by lia.
    fold ds.
    rewrite (zip_with_compose Some (λ i r, (r, i + 1))). fold P.
    f_equal. f_equal.
    cbv beta iota. now rewrite omap_defined, filter_holes_defined, app_nil_r.
  - pose proof key_then_index_transitive as Htrans.
    apply Array_sort_sorted; [exact _ |].
    eapply StronglySorted_weaken; [| apply keyed_pairs_by_index, Hds].
    intros p q (Hp & Hq & Hidx). now apply key_comparator_sorts.
  - now rewrite Array_sort_perm, Hsnd.
  - rewrite Array_sort_perm. unfold P.
    rewrite length_zip_with, length_seqZ. lia.
Qed.

Lemma AFIR_x_SORT_sorted_by_key_witness :
  ∃ pairs,
    AFIR_x_SORT replay 4 [(3 # 4)%Q; (1 # 4)%Q; (1 # 2)%Q; (1 # 4)%Q]
    = (Ok (Some <$> pairs), (draws replay 4 [(3 # 4)%Q; (1 # 4)%Q; (1 # 2)%Q; (1 # 4)%Q]).2)
    ∧ StronglySorted key_then_index pairs.
Proof.
  destruct (AFIR_x_SORT_sorted_by_key replay (Forall unit_interval) 4
              [(3 # 4)%Q; (1 # 4)%Q; (1 # 2)%Q; (1 # 4)%Q])
    as (pairs & Hrun & _ & Hsorted & _).
  - exact replay_ok.
  - unit_interval_by_computation.
  - lia.
  - exists pairs. split; [exact Hrun | exact Hsorted].
Defined.

(** ** The typed array against the ordinary array *)

Section TypedArray.

Context {G : Type} (rand : G → Q * G) (good : G → Prop).
Hypothesis rand_ok : outputs_in_unit_interval rand good.

(** One iteration of the two shuffle loops, on a typed array and on the
    ordinary array of the same numbers. *)
Lemma AFB_x_AS_swap_typed a s i :
  good s → 1 <= i < Z.of_nat (length a) → Forall is_u32 a →
  AFB_x_AS_swap rand (VNum <$> a, s) i
  = (VNum <$> (AFB_x_AS_x_OPT_swap rand (a, s) i).1,
     (AFB_x_AS_x_OPT_swap rand (a, s) i).2).
Proof.
  intros Hs Hi Hword. unfold AFB_x_AS_swap, AFB_x_AS_x_OPT_swap.
  pose proof (random_index_range rand good rand_ok s i Hs ltac:(lia)) as Hj.
  destruct (rand s) as [r s']. cbn [fst snd] in *.
  generalize dependent (floor_mul r (i + 1)). intros j Hj.
  destruct (lookup_lt_is_Some_2 a (Z.to_nat i)) as [xi Hxi]; [lia |].
  destruct (lookup_lt_is_Some_2 a (Z.to_nat j)) as [xj Hxj]; [lia |].
  rewrite (arr_get_lookup (VNum <$> a) i (VNum xi))
    by (lia || now rewrite list_lookup_fmap, Hxi).
  rewrite (arr_get_lookup (VNum <$> a) j (VNum xj))
    by (lia || now rewrite list_lookup_fmap, Hxj).
  rewrite (arr_set_insert (VNum <$> a) i) by (rewrite length_fmap; lia).
  rewrite arr_set_insert by (rewrite length_insert, length_fmap; lia).
  rewrite !u32_get_lookup, !u32_set_insert, Hxi, Hxj by lia. simpl.
  rewrite !ToUint32_word by (eapply Forall_lookup_1; eauto).
  now rewrite !list_fmap_insert.
Qed.

(** The optimisation does not change the result: on the same draws,
    [AFB_x_AS] returns the numbers that [AFB_x_AS_x_OPT] returns, in the
    same order, and both leave the random source in the same state. *)
Theorem AFB_x_AS_agrees_with_typed_array (n : Z) (s : G) :
  good s → 0 <= n < 2 ^ 32 →
  ∃ buf s', AFB_x_AS_x_OPT rand n s = (Ok buf, s')
            ∧ AFB_x_AS rand n s = (Ok (VNum <$> buf), s').
Proof.
  intros Hgood Hn.
  unfold AFB_x_AS_x_OPT, AFB_x_AS, new_Uint32Array, Array_from_length.
  destruct (Z.ltb_spec n 0); [lia |].
  destruct (Z.ltb_spec (2 ^ 53 - 1) n); [lia |].
  destruct (Z.ltb_spec (2 ^ 32 - 1) n); [lia |]. cbn [orb].
  rewrite AFB_x_AS_x_OPT_fill, seqZ_words, arrayFillB_loop by lia.
  pose proof (foldl_related
    (λ (st : list Z * G) (st' : list value * G),
       good st.2 ∧ st'.2 = st.2 ∧ st'.1 = VNum <$> st.1
       ∧ Forall is_u32 st.1 ∧ length st.1 = Z.to_nat n)
    (AFB_x_AS_x_OPT_swap rand) (AFB_x_AS_swap rand)
    (downfrom n) (seqZ 1 n, s) (VNum <$> seqZ 1 n, s)) as Hloop.
  destruct (foldl (AFB_x_AS_x_OPT_swap rand) _ (downfrom n)) as [buf s1].
  destruct (foldl (AFB_x_AS_swap rand) _ (downfrom n)) as [arr s2].
  cbn [fst snd] in Hloop.
  destruct Hloop as (_ & Hs & Harr & _).
  - split; [exact Hgood |]. split; [reflexivity |]. split; [reflexivity |].
    split; [| rewrite length_seqZ; lia].
    apply Forall_seqZ. unfold is_u32. lia.
  - intros [a t] [a' t'] i Hi (Hg & Ht & Ha & Hw & Hl). cbn [fst snd] in *.
    subst t' a'. apply elem_of_downfrom in Hi.
    rewrite AFB_x_AS_swap_typed by (assumption || lia). cbn [fst snd].
    split; [rewrite AFB_x_AS_x_OPT_swap_state; now apply (good_next rand good) |].
    split; [reflexivity |]. split; [reflexivity |].
    unfold AFB_x_AS_x_OPT_swap. destruct (rand t) as [r t']. cbn [fst].
    split; [now apply u32_set_word, u32_set_word |].
    unfold u32_set. repeat destruct (_ <? 0); rewrite ?length_insert; exact Hl.
  - subst. exists buf, s1. split; reflexivity.
Qed.

(** *** The variant without initialisation, index by index *)

Lemma foldl_downfrom_invariant {A} (Q : Z → A → Prop) (f : A → Z → A) (m : nat) :
  ∀ a, Q (Z.of_nat m + 1) a →
       (∀ i a, 1 <= i <= Z.of_nat m → Q (i + 1) a → Q i (f a i)) →
       Q 1 (foldl f a (reverse (seqZ 1 (Z.of_nat m)))).
Proof.
  induction m as [| m IH]; intros a Ha Hstep; [exact Ha |].
  rewrite seqZ_S, reverse_snoc. simpl. apply IH.
  - replace (Z.of_nat m + 1) with (1 + Z.of_nat m) by lia.
    apply Hstep; [lia |].
    now replace (1 + Z.of_nat m + 1) with (Z.of_nat (S m) + 1) by lia.
  - intros i b Hi. apply Hstep. lia.
Qed.

(** A read [a[k] || (k + 1)] is never stored as 0. *)
Lemma or_else_nonzero a k :
  Forall is_u32 a → 0 <= k < 2 ^ 32 - 1 →
  JS.ToUint32 (or_else (u32_get a k) (k + 1)) ≠ 0.
Proof.
  intros Ha Hk. rewrite u32_get_lookup by lia. unfold or_else.
  destruct (a !! Z.to_nat k) as [z |] eqn:Hz.
  - destruct (Z.eqb_spec z 0).
    + rewrite ToUint32_word by (unfold is_u32; lia). lia.
    + now rewrite ToUint32_word by (eapply Forall_lookup_1; eauto).
  - rewrite ToUint32_word by (unfold is_u32; lia). lia.
Qed.

(** After the loop of [AFB_x_AS_x_OPT_x_NO_INIT], no index from 1 on
    holds 0. *)
Lemma NO_INIT_written n s :
  good s → 0 <= n < 2 ^ 32 →
  ∀ p, (1 ≤ p)%nat → (AFB_x_AS_x_OPT_x_NO_INIT rand n s).1 ≠ RangeError
  ∧ ∀ lazy, (AFB_x_AS_x_OPT_x_NO_INIT rand n s).1 = Ok lazy → lazy !! p ≠ Some 0.
Proof.
  intros Hgood Hn p Hp.
  unfold AFB_x_AS_x_OPT_x_NO_INIT, new_Uint32Array.
  destruct (Z.ltb_spec n 0); [lia |].
  destruct (Z.ltb_spec (2 ^ 53 - 1) n); [lia |]. cbn [orb].
  destruct (Z.le_gt_cases n 1) as [Hsmall | Hbig].
  { unfold downfrom. rewrite seqZ_nil by lia. simpl. split; [discriminate |].
    intros lazy [= <-]. rewrite (proj1 (lookup_replicate_None _ _ _)) by lia.
    discriminate. }
  pose proof (foldl_downfrom_invariant
    (λ k (st : list Z * G),
       good st.2 ∧ Forall is_u32 st.1
       ∧ ∀ q, k <= Z.of_nat q → st.1 !! q ≠ Some 0)
    (AFB_x_AS_x_OPT_x_NO_INIT_swap rand) (Z.to_nat (n - 1))
    (replicate (Z.to_nat n) 0, s)) as Hloop.
  rewrite Z2Nat.id in Hloop by lia. fold (downfrom n) in Hloop.
  destruct (foldl (AFB_x_AS_x_OPT_x_NO_INIT_swap rand) _ (downfrom n))
    as [lazy s'].
  cbn [fst snd] in *. split; [discriminate |]. intros ? [= <-].
  apply Hloop; [| | lia].
  - split; [exact Hgood |]. split.
    + apply Forall_replicate. unfold is_u32. lia.
    + intros q Hq. cbn [fst].
      rewrite (proj1 (lookup_replicate_None _ _ _)) by lia. discriminate.
  - intros i [a t] Hi (Hg & Hw & Hnz). cbn [fst snd] in *.
    split; [rewrite AFB_x_AS_x_OPT_x_NO_INIT_swap_state;
            now apply (good_next rand good) |].
    unfold AFB_x_AS_x_OPT_x_NO_INIT_swap.
    pose proof (random_index_range rand good rand_ok t i Hg ltac:(lia)) as Hj.
    destruct (rand t) as [r t']. cbn [fst snd] in *.
    generalize dependent (floor_mul r (i + 1)). intros j Hj.
    split; [now apply u32_set_word, u32_set_word |].
    intros q Hq. rewrite !u32_set_insert by lia. cbn [from_option].
    rewrite !list_lookup_insert.
    destruct (decide (Z.to_nat j = q ∧ _)) as [_ | _].
    { intros [= Hzero]. revert Hzero. apply or_else_nonzero; [exact Hw | lia]. }
    destruct (decide (Z.to_nat i = q ∧ _)) as [_ | Hne].
    { intros [= Hzero]. revert Hzero. apply or_else_nonzero; [exact Hw | lia]. }
    destruct (a !! q) as [x |] eqn:Hx; [| discriminate].
    apply lookup_lt_Some in Hx as Hlt.
    rewrite <- Hx. apply Hnz.
    destruct (decide (Z.to_nat i = q)) as [Heq | Hneq]; [| lia].
    exfalso. apply Hne. split; [exact Heq | lia].
Qed.

(** On the same draws, the buffer of [AFB_x_AS_x_OPT_x_NO_INIT] is that of
    [AFB_x_AS_x_OPT], or differs from it at index 0 only, where it holds 0
    and the other holds 1. *)
Theorem NO_INIT_differs_at_index_zero_only (n : Z) (s : G) :
  good s → 0 <= n < 2 ^ 32 →
  ∃ lazy eager s',
    AFB_x_AS_x_OPT_x_NO_INIT rand n s = (Ok lazy, s')
    ∧ AFB_x_AS_x_OPT rand n s = (Ok eager, s')
    ∧ (lazy = eager ∨ (lazy = <[0%nat := 0]> eager ∧ eager !! 0%nat = Some 1)).
Proof.
  intros Hgood Hn.
  destruct (NO_INIT_materialized rand good rand_ok n s Hgood Hn)
    as (lazy & eager & s' & Hlazy & Heager & Hmat).
  exists lazy, eager, s'. split; [exact Hlazy |]. split; [exact Heager |].
  assert (Hnz : ∀ p, (1 ≤ p)%nat → lazy !! p ≠ Some 0).
  { intros p Hp. destruct (NO_INIT_written n s Hgood Hn p Hp) as [_ H].
    apply H. now rewrite Hlazy. }
  assert (Hrest : ∀ p, (1 ≤ p)%nat → lazy !! p = eager !! p).
  { intros p Hp. rewrite <- Hmat, materialize_lookup.
    specialize (Hnz p Hp). destruct (lazy !! p) as [v |]; [| reflexivity].
    simpl. destruct (Z.eqb_spec v 0); [congruence | reflexivity]. }
  assert (Hlen : length eager = length lazy)
    by now rewrite <- Hmat, materialize_length.
  assert (Hhead : eager !! 0%nat
                  = (λ v, or_else (Some v) 1) <$> lazy !! 0%nat)
    by now rewrite <- Hmat, materialize_lookup.
  destruct (lazy !! 0%nat) as [v |] eqn:Hv.
  - simpl in Hhead. destruct (Z.eqb_spec v 0) as [-> | Hne].
    + right. split; [| exact Hhead].
      apply list_eq. intros [| p].
      * rewrite Hv, list_lookup_insert.
        apply lookup_lt_Some in Hv.
        destruct (decide (0%nat = 0%nat ∧ _)) as [_ | Hc]; [reflexivity |].
        exfalso. apply Hc. split; [reflexivity | lia].
      * rewrite list_lookup_insert_ne by lia. apply Hrest. lia.
    + left. apply list_eq. intros [| p]; [| apply Hrest; lia].
      now rewrite Hv, Hhead.
  - left. apply list_eq. intros [| p]; [| apply Hrest; lia].
    now rewrite Hv, Hhead.
Qed.

End TypedArray.

Lemma AFB_x_AS_agrees_with_typed_array_witness :
  ∃ buf s', AFB_x_AS_x_OPT mulberry32 8 20250610 = (Ok buf, s')
            ∧ AFB_x_AS mulberry32 8 20250610 = (Ok (VNum <$> buf), s').
Proof.
  apply (AFB_x_AS_agrees_with_typed_array mulberry32 (λ _, True) mulberry32_ok);
    [exact I | lia].
Defined.

Lemma NO_INIT_differs_at_index_zero_only_witness :
  ∃ lazy eager s',
    AFB_x_AS_x_OPT_x_NO_INIT replay 2 [(3 # 4)%Q] = (Ok lazy, s')
    ∧ AFB_x_AS_x_OPT replay 2 [(3 # 4)%Q] = (Ok eager, s')
    ∧ (lazy = eager ∨ (lazy = <[0%nat := 0]> eager ∧ eager !! 0%nat = Some 1)).
Proof.
  apply (NO_INIT_differs_at_index_zero_only replay (Forall unit_interval)
           replay_ok); [| lia].
  unit_interval_by_computation.
Defined.

(** ** The scan of the bucket memory *)

Lemma foldl_push {A B} (g : B → A) (l : list B) : ∀ a,
  foldl (λ a j, a ++ [g j]) a l = a ++ (g <$> l).
Proof.
  induction l as [| x l IH]; intros a; simpl; [now rewrite app_nil_r |].
  now rewrite IH, <- app_assoc.
Qed.

Lemma value_index_elements l :
  value_index (VArr l) <$> upto (Z.of_nat (length l)) = VNum <$> l.
Proof.
  apply list_eq. intros k. unfold upto. rewrite !list_lookup_fmap.
  destruct (decide (k < length l)%nat) as [Hk | Hk].
  - rewrite lookup_seqZ_lt by lia.
    destruct (lookup_lt_is_Some_2 l k Hk) as [x Hx]. rewrite Hx.
    cbn [fmap option_fmap option_map value_index].
    destruct (Z.ltb_spec (0 + Z.of_nat k) 0); [lia |].
    replace (Z.to_nat (0 + Z.of_nat k)) with k by lia. now rewrite Hx.
  - rewrite lookup_seqZ_ge, lookup_ge_None_2 by lia. reflexivity.
Qed.

Lemma BucketRadixShuffle_emit_slot m a i v :
  0 <= i → m !! Z.to_nat i = Some v →
  BucketRadixShuffle_emit m a i = a ++ scanned (isArray (arr_get m 1)) v.
Proof.
  intros Hi Hv. unfold BucketRadixShuffle_emit, scanned.
  rewrite (arr_get_lookup m i v Hi Hv).
  destruct (truthy v) eqn:Htruthy; [| now rewrite app_nil_r].
  destruct (isArray (arr_get m 1)); [| reflexivity]. cbn [negb].
  destruct v as [| z | l]; [discriminate Htruthy | now rewrite app_nil_r |].
  cbn [value_length default]. now rewrite foldl_push, value_index_elements.
Qed.

Lemma BucketRadixShuffle_emit_loop m (k : nat) :
  (k ≤ length m)%nat →
  foldl (BucketRadixShuffle_emit m) [] (upto (Z.of_nat k))
  = take k m ≫= scanned (isArray (arr_get m 1)).
Proof.
  unfold upto. induction k as [| k IH]; intros Hk; [reflexivity |].
  destruct (lookup_lt_is_Some_2 m k ltac:(lia)) as [v Hv].
  rewrite seqZ_S, foldl_snoc, IH by lia.
  rewrite (BucketRadixShuffle_emit_slot m _ _ v)
    by (lia || now rewrite Z.add_0_l, Nat2Z.id).
  rewrite (take_S_r m k v Hv), bind_app. simpl. now rewrite app_nil_r.
Qed.

(** The second loop of [BucketRadixShuffle], slot by slot: whether a slot
    is copied or unpacked is decided by slot 1 of the memory, for every
    slot.  When slot 1 holds an array, every bucket is unpacked and every
    number that is alone in its slot is left out; otherwise every non-zero
    slot is appended as it is, a bucket as one element. *)
Theorem BucketRadixShuffle_scan {G : Type} (rand : G → Q * G)
  (m : list value) (n : Z) (s : G) :
  let r := BucketRadixShuffle rand m n s in
  r.1.1 = r.1.2 ≫= scanned (isArray (arr_get r.1.2 1)).
Proof.
  cbv zeta. unfold BucketRadixShuffle.
  destruct (foldl (BucketRadixShuffle_put rand) (m, s) (upto n)) as [m' s'].
  cbn [fst snd]. rewrite BucketRadixShuffle_emit_loop by reflexivity.
  now rewrite firstn_all.
Qed.

Lemma scanned_numbers m :
  Forall (λ v, isArray v = false) m →
  isArray (arr_get m 1) = false
  ∧ m ≫= scanned false = VNum <$> memory_contents m.
Proof.
  intros Hm. split.
  - unfold arr_get. change (1 <? 0) with false. change (Z.to_nat 1) with 1%nat.
    cbv iota. destruct (m !! 1%nat) as [v |] eqn:Hv; [| reflexivity].
    exact (Forall_lookup_1 _ _ _ _ Hm Hv).
  - unfold memory_contents.
    induction Hm as [| v m Hv _ IH]; [reflexivity |].
    rewrite !bind_cons, fmap_app, IH. f_equal.
    destruct v as [| z | l]; [reflexivity | | discriminate Hv].
    unfold scanned. simpl. now destruct (z =? 0).
Qed.

(** When no two values were drawn into the same slot, the array returned by
    [BucketRadixShuffle] on zeroed memory is a rearrangement of the numbers
    [1 .. n]. *)
Theorem BucketRadixShuffle_without_collision {G : Type}
  (rand : G → Q * G) (good : G → Prop) (m : list value) (n : Z) (s : G) :
  outputs_in_unit_interval rand good →
  good s → (0 < length m)%nat → Forall (λ v, v = VNum 0) m → 0 <= n →
  let r := BucketRadixShuffle rand m n s in
  Forall (λ v, isArray v = false) r.1.2 →
  r.1.1 ≡ₚ VNum <$> seqZ 1 n.
Proof.
  intros rand_ok Hgood Hlen Hzero Hn r Hfree.
  destruct (BucketRadixShuffle_distributes rand good rand_ok m n s
              Hgood Hlen Hzero Hn) as (_ & Hcontents & _).
  fold r in Hcontents.
  destruct (scanned_numbers r.1.2 Hfree) as [Hone Hscan].
  assert (Ha : r.1.1 = r.1.2 ≫= scanned (isArray (arr_get r.1.2 1))).
  { subst r. unfold BucketRadixShuffle.
    destruct (foldl (BucketRadixShuffle_put rand) (m, s) (upto n)) as [m' s'].
    cbn [fst snd]. rewrite BucketRadixShuffle_emit_loop by reflexivity.
    now rewrite firstn_all. }
  rewrite Ha, Hone, Hscan. now apply fmap_Permutation.
Qed.

Lemma BucketRadixShuffle_without_collision_witness :
  (BucketRadixShuffle replay [VNum 0; VNum 0; VNum 0] 2
     [(1 # 2)%Q; (1 # 8)%Q]).1.1 ≡ₚ VNum <$> seqZ 1 2.
Proof.
  apply (BucketRadixShuffle_without_collision replay (Forall unit_interval));
    [apply replay_ok | | simpl; lia | repeat constructor | lia
     | vm_compute; repeat constructor].
  unit_interval_by_computation.
Defined.

Lemma BucketRadixShuffle_memory_witness :
  ∃ m, arrayFillZero (2 * 3) = Ok m
       ∧ memory_contents
           (BucketRadixShuffle replay m 3 [(1 # 8)%Q; (1 # 8)%Q; (7 # 8)%Q]).1.2
         ≡ₚ seqZ 1 3.
Proof.
  destruct (BucketRadixShuffle_memory 2 3 [(1 # 8)%Q; (1 # 8)%Q; (7 # 8)%Q])
    as (m & Hm & _ & Hcontents & _); try lia.
  - unit_interval_by_computation.
  - exists m. split; [exact Hm | exact Hcontents].
Defined.

(** ** What the program prints *)

Lemma append_assoc (s1 s2 s3 : string) :
  (s1 +:+ s2) +:+ s3 = s1 +:+ (s2 +:+ s3).
Proof.
  induction s1 as [| c s1 IH]; [reflexivity |].
  change (String c ((s1 +:+ s2) +:+ s3) = String c (s1 +:+ (s2 +:+ s3))).
  now rewrite IH.
Qed.

Lemma append_empty_r (s : string) : s +:+ "" = s.
Proof.
  induction s as [| c s IH]; [reflexivity |].
  change (String c (s +:+ "") = String c s). now rewrite IH.
Qed.

Lemma stdout_of_app evs evs' :
  stdout_of (evs ++ evs') = stdout_of evs +:+ stdout_of evs'.
Proof.
  induction evs as [| ev evs IH]; [reflexivity |].
  destruct ev; simpl; rewrite IH; try reflexivity.
  now rewrite append_assoc.
Qed.

Lemma stdout_of_write_from a : ∀ i x,
  x +:+ stdout_of (write_from (S i) a)
  = String.concat "," (x :: (pretty <$> a)).
Proof.
  induction a as [| y a IH]; intros i x.
  - simpl. now rewrite append_empty_r.
  - change (write_from (S i) (y :: a))
      with ([stdout_write ","] ++ stdout_write (pretty y) :: write_from (S (S i)) a).
    cbn [app stdout_of]. rewrite (IH (S i) (pretty y)).
    reflexivity.
Qed.

Lemma stdout_of_output a :
  stdout_of (write_from 0 a) = String.concat "," (pretty <$> a).
Proof.
  destruct a as [| x a]; [reflexivity |].
  change (write_from 0 (x :: a)) with (stdout_write (pretty x) :: write_from 1 a).
  cbn [stdout_of]. apply stdout_of_write_from.
Qed.

Lemma integer_accepted q k :
  (q == inject_Z k)%Q → 1 <= k →
  negb (Number_isInteger (Finite q)) || number_lt (Finite q) 1 = false
  ∧ Qfloor q = k.
Proof.
  intros Hq Hk. split.
  - apply orb_false_intro.
    + apply negb_false_iff. simpl. apply Z.eqb_eq.
      unfold Qeq in Hq. simpl in Hq.
      replace (Qnum q) with (k * Z.pos (Qden q)) by lia.
      apply Z_mod_mult.
    + simpl. apply negb_false_iff, Qle_bool_iff. rewrite Hq.
      change 1%Q with (inject_Z 1). now rewrite <- Zle_Qle.
  - rewrite Hq. apply Qfloor_Z.
Qed.

(** Given an argument that denotes an integer [k] with [1 <= k < 2^32],
    [main] calls [AFB_x_AS_x_OPT (k)] once, reports nothing on the error
    stream and does not exit early; the text on the standard output is one
    line: the decimal numerals of a rearrangement of [1 .. k], separated by
    commas, followed by a line feed. *)
Theorem main_prints_one_line
  (Number : string → number) (arg : string) (seed : Z) (q : Q) (k : Z) :
  arg ≠ ""%string → Number arg = Finite q → (q == inject_Z k)%Q →
  1 <= k < 2 ^ 32 →
  ∃ a, a ≡ₚ seqZ 1 k
       ∧ main Number (Some arg) seed
         = call_AFB_x_AS_x_OPT k :: write_from 0 a ++ [stdout_write newline]
       ∧ stdout_of (main Number (Some arg) seed)
         = String.concat "," (pretty <$> a) +:+ newline.
Proof.
  intros Harg HNumber Hq Hk.
  destruct (integer_accepted q k Hq ltac:(lia)) as [Hcheck Hfloor].
  destruct (AFB_x_AS_x_OPT_permutation mulberry32 (λ _, True) mulberry32_ok
              k seed I ltac:(lia)) as (a & seed' & Hrun & _ & Hperm).
  assert (Hmain : main Number (Some arg) seed
            = call_AFB_x_AS_x_OPT k :: write_from 0 a ++ [stdout_write newline]).
  { unfold main. destruct arg as [| c arg]; [congruence |].
    rewrite HNumber, Hcheck, Hfloor, Hrun. reflexivity. }
  exists a. split; [exact Hperm |]. split; [exact Hmain |].
  rewrite Hmain. cbn [stdout_of].
  rewrite stdout_of_app, stdout_of_output. simpl.
  now rewrite append_empty_r.
Qed.

Lemma main_prints_one_line_witness :
  ∃ a, a ≡ₚ seqZ 1 8
       ∧ stdout_of (main (λ _, Finite 8) (Some "8"%string) 1750000000000)
         = String.concat "," (pretty <$> a) +:+ newline.
Proof.
  destruct (main_prints_one_line (λ _, Finite 8) "8"%string 1750000000000 8 8)
    as (a & Hperm & _ & Hout).
  - discriminate.
  - reflexivity.
  - reflexivity.
  - lia.
  - exists a. split; [exact Hperm | exact Hout].
Defined.

Lemma main_passes_size_unchanged_witness :
  ∃ arg q, Some "8"%string = Some arg ∧ Finite 8 = Finite q
           ∧ (q == inject_Z 8)%Q ∧ 1 <= 8.
Proof.
  apply (main_passes_size_unchanged (λ _, Finite 8) (Some "8"%string)
           1750000000000 8).
  vm_compute. constructor.
Defined.

Lemma measure_propagates_throw_witness :
  measure (λ _ _ _, ""%string)
    {| f := λ w : World nat, (Threw, w); n := 1000%Q; name := "throws" |}
    {| heap := 0%nat; timeline := λ _, 5%Q; console := [] |}
  = (Threw, {| heap := 0%nat; timeline := λ k, 5%Q; console := [] |}).
Proof.
  apply (measure_propagates_throw (λ _ _ _, ""%string)
           {| f := λ w : World nat, (Threw, w); n := 1000%Q; name := "throws" |}).
  reflexivity.
Defined.

Lemma arrayFill_differ_witness : arrayFillA 3 ≠ arrayFillB 3.
Proof. apply (arrayFill_differ 3). lia. Defined.
